(** * darker.utils: ancestor chains and the deepest common root

    A shallow embedding of [get_path_ancestry] and [get_common_root] from
    [src/darker/utils.py], together with the parts of [pathlib] and of the
    builtins ([zip], [reversed], [all]) those two functions rely on, and of
    the other functions of the module: [detect_newline], [joinlines],
    [debug_dump], [glob_any] and [fix_py37_win_tempdir_permissions]. *)

From Stdlib Require Import String List Bool Arith Lia Permutation.
From Stdlib Require Import Ascii ZArith DecimalString.
Import ListNotations.
Local Open Scope string_scope.
Local Open Scope list_scope.

Set Implicit Arguments.

(** ** Paths

    A [pathlib] path is its anchor (drive and root: ["/"] on POSIX, a drive
    letter, a colon and a backslash on Windows, the empty string for a
    relative path) followed by the names below the anchor. *)

Record Path : Type := mkPath { anchor : string; segments : list string }.

Definition root (a : string) : Path := mkPath a [].

Fixpoint segments_eqb (xs ys : list string) : bool :=
  match xs, ys with
  | [], [] => true
  | x :: xs', y :: ys' => String.eqb x y && segments_eqb xs' ys'
  | _, _ => false
  end.

(** [Path.__eq__]. *)
Definition path_eqb (p q : Path) : bool :=
  String.eqb (anchor p) (anchor q) && segments_eqb (segments p) (segments q).

(** [Path.parent]: the last name is dropped; the parent of an anchor is the
    anchor itself. *)
Definition parent (p : Path) : Path :=
  mkPath (anchor p) (removelast (segments p)).

(** [Path.parents] is a sequence indexed from the closest ancestor: its length
    is the number of names, and item [idx] keeps all but the last [idx + 1]
    names. *)
Definition parents_len (p : Path) : nat := length (segments p).

Definition parents_getitem (p : Path) (idx : nat) : Path :=
  mkPath (anchor p) (firstn (parents_len p - idx - 1) (segments p)).

Definition parents (p : Path) : list Path :=
  map (parents_getitem p) (seq 0 (parents_len p)).

(** ** The filesystem

    What the two functions ask of the filesystem: the kind of node a path
    points to (behind [Path.is_dir]) and canonicalisation ([Path.resolve]). *)

Inductive node : Type := Missing | File | Dir.

Record FS : Type := mkFS { stat : Path -> node; resolve : Path -> Path }.

(** [Path.is_dir]: false for a file and for a path that does not exist. *)
Definition is_dir (fs : FS) (p : Path) : bool :=
  match stat fs p with
  | Dir => true
  | _ => false
  end.

(** ** [get_path_ancestry] *)

Definition get_path_ancestry (fs : FS) (path : Path) : list Path :=
  let reverse_parents := rev (parents path) in
  if is_dir fs path then reverse_parents ++ [path] else reverse_parents.

(** ** [zip] over the unpacked chains

    One row per lockstep position; the rows stop as soon as one of the
    iterables is exhausted, and there is no row at all without iterables. *)

Fixpoint heads (A : Type) (ls : list (list A)) : option (list A) :=
  match ls with
  | [] => Some []
  | [] :: _ => None
  | (x :: _) :: rest =>
      match heads rest with
      | Some hs => Some (x :: hs)
      | None => None
      end
  end.

Fixpoint zip_rows (A : Type) (l : list A) (others : list (list A))
  : list (list A) :=
  match l with
  | [] => []
  | x :: l' =>
      match heads others with
      | Some hs => (x :: hs) :: zip_rows l' (map (@tl A) others)
      | None => []
      end
  end.

Definition zip_star (A : Type) (ls : list (list A)) : list (list A) :=
  match ls with
  | [] => []
  | l :: others => zip_rows l others
  end.

(** ** [get_common_root] *)

Inductive error : Type :=
| NoCommonRoot (resolved_paths : list Path)
    (* ValueError("Paths have no common parent Git root: ...") *)
| UnpackError.
    (* unpacking an empty tuple into [first_path, *other_paths] *)

(** The [for first_path, *other_paths in parents] loop: [Some] is the
    [return] inside the loop, [None] is falling out of it. *)
Fixpoint scan (rows : list (list Path)) : option (error + Path) :=
  match rows with
  | [] => None
  | [] :: _ => Some (inl UnpackError)
  | (first_path :: other_paths) :: rest =>
      if forallb (fun path => path_eqb path first_path) other_paths
      then Some (inr first_path)
      else scan rest
  end.

Definition get_common_root (fs : FS) (paths : list Path) : error + Path :=
  let resolved_paths := map (resolve fs) paths in
  let parents := rev (zip_star (map (get_path_ancestry fs) resolved_paths)) in
  match scan parents with
  | Some r => r
  | None => inl (NoCommonRoot resolved_paths)
  end.

(** ** Notions used to state the properties *)

(** The path made of the first [k] names of [p]. *)
Definition prefix (p : Path) (k : nat) : Path :=
  mkPath (anchor p) (firstn k (segments p)).

(** The length of the chain of [p]. *)
Definition chain_len (fs : FS) (p : Path) : nat :=
  length (segments p) + (if is_dir fs p then 1 else 0).

(** [row] holds, chain by chain, the element at position [i]. *)
Definition column (A : Type) (i : nat) (ls : list (list A)) (row : list A)
  : Prop :=
  Forall2 (fun l x => nth_error l i = Some x) ls row.

(** The test of the loop body on one row. *)
Definition uniformb (row : list Path) : bool :=
  match row with
  | [] => false
  | first_path :: other_paths =>
      forallb (fun path => path_eqb path first_path) other_paths
  end.

(** The ancestor chains the function zips. *)
Definition chains (fs : FS) (paths : list Path) : list (list Path) :=
  map (get_path_ancestry fs) (map (resolve fs) paths).

(** Every chain has the element [r] at position [i], counted from the root
    end of the chains. *)
Definition shared_at (cs : list (list Path)) (i : nat) (r : Path) : Prop :=
  Forall (fun c => nth_error c i = Some r) cs.

(** [i] is the last position that some element occupies in every chain. *)
Definition last_shared (cs : list (list Path)) (i : nat) (r : Path) : Prop :=
  shared_at cs i r /\ forall j q, i < j -> ~ shared_at cs j q.

(** The root above [p] exists as a directory. *)
Definition root_is_directory (fs : FS) (p : Path) : Prop :=
  stat fs (root (anchor p)) = Dir.

(** [a] anchors the one root of the filesystem: it is a directory and every
    resolved path lies below it. *)
Definition fs_root (fs : FS) (a : string) : Prop :=
  stat fs (root a) = Dir /\ forall p, anchor (resolve fs p) = a.

Definition single_root (fs : FS) : Prop := exists a, fs_root fs a.

(** Every ancestor of a resolved path, and the path itself, is canonical. *)
Definition canonical_resolve (fs : FS) : Prop :=
  forall p k, resolve fs (prefix (resolve fs p) k) = prefix (resolve fs p) k.

(** ** Concrete filesystems and paths used in the examples *)

Definition posix (segs : list string) : Path := mkPath "/" segs.

(** The two files of the scenario below [/a/b]. *)
Definition file_txt : Path := posix ["a"; "b"; "c"; "file.txt"].
Definition file2_txt : Path := posix ["a"; "b"; "d"; "file2.txt"].

(** The anchor of a Windows drive. *)
Definition drive (letter : string) : string :=
  letter ++ ":" ++ String (Ascii.ascii_of_nat 92) "".

(** A POSIX filesystem without symbolic links, given by the list of its
    directories and of its files; the working directory is the root, so
    resolving a path puts its names below ["/"]. *)
Definition fs_of (dirs files : list Path) : FS :=
  mkFS (fun p => if existsb (path_eqb p) dirs then Dir
                 else if existsb (path_eqb p) files then File
                 else Missing)
       (fun p => posix (segments p)).

Definition fs_project : FS :=
  fs_of [posix []; posix ["a"]; posix ["a"; "b"];
         posix ["a"; "b"; "c"]; posix ["a"; "b"; "d"]]
        [posix ["a"; "b"; "c"; "file.txt"]; posix ["a"; "b"; "d"; "file2.txt"]].

(** [/a/b/c] is a file. *)
Definition fs_file : FS :=
  fs_of [posix []; posix ["a"]; posix ["a"; "b"]] [posix ["a"; "b"; "c"]].

(** Only the root directory exists. *)
Definition fs_bare : FS := fs_of [posix []] [].

(** Two drives, as on Windows; paths are already canonical. *)
Definition fs_drives : FS :=
  mkFS (fun p => match segments p with [] => Dir | _ => Missing end)
       (fun p => p).

(** [q] is [p] or one of [p.parents]. *)
Definition ancestor_or_self (q p : Path) : Prop :=
  q = p \/ In q (parents p).

(** ** Text: [detect_newline] and [joinlines]

    A Python [str] is modelled by a [string]; the two characters the code
    names are the line feed and the carriage return. *)

Definition LF : ascii := "010"%char.
Definition CR : ascii := "013"%char.

(** The literals ["\n"] and ["\r\n"] of the source. *)
Definition lf : string := String LF "".
Definition crlf : string := String CR (String LF "").

(** [str.find]: the lowest index at which [sub] occurs in [s], or -1. *)
Definition str_find (s sub : string) : Z :=
  match index 0 sub s with
  | Some n => Z.of_nat n
  | None => (-1)%Z
  end.

(** [s[i]]: a negative index counts from the end; [None] is the IndexError
    of an index outside the string. *)
Definition str_getitem (s : string) (i : Z) : option ascii :=
  let i' := if (i <? 0)%Z then (i + Z.of_nat (String.length s))%Z else i in
  if (i' <? 0)%Z then None else get (Z.to_nat i') s.

(** [None] stands for an exception raised by the indexing. *)
Definition detect_newline (str : string) : option string :=
  let first_lf_pos := str_find str lf in
  if (0 <? first_lf_pos)%Z then
    match str_getitem str (first_lf_pos - 1) with
    | Some c => if Ascii.eqb c CR then Some crlf else Some lf
    | None => None
    end
  else Some lf.

(** [newline] is the keyword argument, ["\n"] when the caller omits it. *)
Definition joinlines (lines : list string) (newline : string) : string :=
  String.concat "" (map (fun line => (line ++ newline)%string) lines).

(** [str.splitlines()], which the docstring of [joinlines] refers to, on
    characters below 256: the line boundaries are line feed, carriage
    return (one boundary together with a line feed that follows it),
    vertical tab, form feed, the file, group and record separators and next
    line. *)
Definition is_linebreak (c : ascii) : bool :=
  existsb (Ascii.eqb c)
          [LF; CR; "011"%char; "012"%char; "028"%char; "029"%char;
           "030"%char; "133"%char].

(** [line] is [None] between two lines and holds the characters read so far
    inside a line; a line is emitted at its boundary or at the end of the
    text. *)
Fixpoint splitlines_from (line : option string) (s : string) : list string :=
  let current := match line with Some l => l | None => ""%string end in
  match s with
  | EmptyString => match line with Some l => [l] | None => [] end
  | String c rest =>
      if is_linebreak c then
        current ::
          match rest with
          | String c' rest' =>
              if Ascii.eqb c CR && Ascii.eqb c' LF
              then splitlines_from None rest'
              else splitlines_from None rest
          | EmptyString => splitlines_from None rest
          end
      else splitlines_from (Some (current ++ String c "")%string) rest
  end.

Definition splitlines (s : string) : list string := splitlines_from None s.

(** Some character of [s] is a line boundary. *)
Fixpoint has_linebreak (s : string) : bool :=
  match s with
  | EmptyString => false
  | String c rest => is_linebreak c || has_linebreak rest
  end.

(** The line feed is the only line boundary that occurs in [s]. *)
Fixpoint only_lf_breaks (s : string) : Prop :=
  match s with
  | EmptyString => True
  | String c rest => (is_linebreak c = true -> c = LF) /\ only_lf_breaks rest
  end.

(** The characters of the line being read. *)
Definition current_line (line : option string) : string :=
  match line with Some l => l | None => ""%string end.

(** ** [glob_any]

    [any(path.glob(pattern) for pattern in patterns)]: [any] tests the truth
    value of the object each call of [Path.glob] returns; [glob] and [truth]
    stand for that call and for that truth value. *)
Definition glob_any (G : Type) (glob : Path -> string -> G)
           (truth : G -> bool) (path : Path) (patterns : list string) : bool :=
  existsb (fun pattern => truth (glob path pattern)) patterns.

(** ** [debug_dump]

    The lines the function prints, in order. *)

(** [logging.DEBUG]. *)
Definition DEBUG : Z := 10%Z.

(** [n * s] for a string [s]. *)
Definition str_repeat (n : nat) (s : string) : string :=
  String.concat "" (repeat s n).

(** [str(n)] for an integer. *)
Definition str_of_int (n : Z) : string :=
  DecimalString.NilZero.string_of_int (Z.to_int n).

(** The format [{n:4}]: an integer right-aligned in at least 4 columns. *)
Definition format_width4 (n : Z) : string :=
  let digits := str_of_int n in
  (str_repeat (4 - String.length digits) " " ++ digits)%string.

(** [enumerate]. *)
Definition enumerate (A : Type) (l : list A) : list (Z * A) :=
  combine (map Z.of_nat (seq 0 (length l))) l.

Definition DiffChunk : Type := Z * list string * list string.

(** The body of the loop over [black_chunks]. *)
Definition dump_chunk (edited_linenums : list Z) (chunk : DiffChunk)
  : list string :=
  let '(offset, old_lines, new_lines) := chunk in
  str_repeat 80 "-"
  :: map (fun '(delta, old_line) =>
            let linenum := (offset + delta)%Z in
            let edited :=
              if existsb (Z.eqb linenum) edited_linenums then "*" else " " in
            (edited ++ "-" ++ format_width4 linenum ++ " " ++ old_line)%string)
         (enumerate old_lines)
  ++ map (fun new_line => (" +     " ++ new_line)%string) new_lines.

(** [effective_level] is what [logger.getEffectiveLevel()] returns. *)
Definition debug_dump (effective_level : Z) (black_chunks : list DiffChunk)
           (edited_linenums : list Z) : list string :=
  if (effective_level >? DEBUG)%Z then []
  else flat_map (dump_chunk edited_linenums) black_chunks
       ++ [str_repeat 80 "-"].

(** ** [fix_py37_win_tempdir_permissions]

    The directory tree that [os.walk] visits and the calls the function
    makes on it, in order. *)

#[warnings="-register-all"]
Inductive tree : Type :=
| TFile
| TDir (entries : list (string * tree)).

Definition is_tdir (t : tree) : bool :=
  match t with
  | TDir _ => true
  | TFile => false
  end.

(** [os.path.join(root, name)]. *)
Definition join (top : Path) (name : string) : Path :=
  mkPath (anchor top) (segments top ++ [name]).

(** [os.walk(top)], top down: one triple [(root, dirs, files)] for [top]
    and then for each of its directories in turn; nothing when [top] is not
    a directory. *)
Fixpoint walk (top : Path) (t : tree)
  : list (Path * list string * list string) :=
  match t with
  | TFile => []
  | TDir entries =>
      let dirs := map fst (filter (fun e => is_tdir (snd e)) entries) in
      let files := map fst (filter (fun e => negb (is_tdir (snd e))) entries) in
      (top, dirs, files)
      :: flat_map (fun e => if is_tdir (snd e)
                            then walk (join top (fst e)) (snd e)
                            else [])
                  entries
  end.

Inductive syscall : Type :=
| Chflags (path : Path) (flags : nat)
| Chmod (path : Path) (mode : nat).

(** [sys.platform.startswith("win")]. *)
Definition WINDOWS (platform : string) : bool := String.prefix "win" platform.

(** [sys.version_info >= (3, 8)], on the major and minor numbers. *)
Definition version_at_least_3_8 (version_info : nat * nat) : bool :=
  let '(major, minor) := version_info in
  Nat.ltb 3 major || (Nat.eqb major 3 && Nat.leb 8 minor).

(** The mode [0o700]. *)
Definition mode_0o700 : nat := 7 * 64.

(** [has_chflags] tells whether [os] has the attribute [chflags]; without it
    the call raises AttributeError, which the function passes over. *)
Definition fix_py37_win_tempdir_permissions
           (platform : string) (version_info : nat * nat) (has_chflags : bool)
           (dirpath : Path) (t : tree) : list syscall :=
  if negb (WINDOWS platform) || version_at_least_3_8 version_info then []
  else
    flat_map
      (fun '(root, dirs, files) =>
         flat_map (fun name =>
                     let path := join root name in
                     (if has_chflags then [Chflags path 0] else [])
                     ++ [Chmod path mode_0o700])
                  (dirs ++ files))
      (walk dirpath t).

(** [rel] leads from a directory to one of the entries below it. *)
Inductive entry_at : tree -> list string -> Prop :=
| entry_child (entries : list (string * tree)) (name : string) (sub : tree) :
    In (name, sub) entries -> entry_at (TDir entries) [name]
| entry_deeper (entries : list (string * tree)) (name : string) (sub : tree)
               (rel : list string) :
    In (name, sub) entries -> entry_at sub rel ->
    entry_at (TDir entries) (name :: rel).

(** The path [rel] below [top]. *)
Definition extend (top : Path) (rel : list string) : Path :=
  mkPath (anchor top) (segments top ++ rel).

(** The number of entries below the top of a tree. *)
Fixpoint entries_below (t : tree) : nat :=
  match t with
  | TFile => 0
  | TDir entries =>
      list_sum (map (fun e => S (entries_below (snd e))) entries)
  end.

(** A temporary directory with a file and a directory holding a file. *)
Definition tmp_tree : tree :=
  TDir [("a.txt"%string, TFile);
        ("sub"%string, TDir [("b.txt"%string, TFile)])].

(** The paths that the loop body is run on, for the triples [rows]. *)
Definition touched (rows : list (Path * list string * list string))
  : list Path :=
  flat_map (fun '(top, dirs, files) => map (join top) (dirs ++ files)) rows.

(** The calls of one run of the loop body. *)
Definition calls_on (has_chflags : bool) (path : Path) : list syscall :=
  (if has_chflags then [Chflags path 0] else []) ++ [Chmod path mode_0o700].

(** ** [Path.is_dir] with the errors of [os.stat]

    [Path.is_dir] calls [os.stat]. It answers [False] when the call fails
    with one of the errors [pathlib] ignores (the path does not exist, a
    component is not a directory, a bad descriptor, a loop of links) or
    with a ValueError, and lets every other OSError through. *)

Inductive errno : Type :=
| ENOENT | ENOTDIR | EBADF | ELOOP | EACCES | ENAMETOOLONG.

Inductive stat_outcome : Type :=
| StatDir
    (* S_ISDIR(st_mode) holds *)
| StatNotDir
    (* a node of another kind *)
| StatOSError (e : errno)
| StatValueError.
    (* a path that cannot be encoded *)

(** [pathlib._ignore_error] on the error number. *)
Definition ignore_error (e : errno) : bool :=
  match e with
  | ENOENT | ENOTDIR | EBADF | ELOOP => true
  | EACCES | ENAMETOOLONG => false
  end.

Module Raising.

(** [inl e] is the OSError that [Path.is_dir] lets through. *)
Definition is_dir (os_stat : Path -> stat_outcome) (p : Path)
  : errno + bool :=
  match os_stat p with
  | StatDir => inr true
  | StatNotDir => inr false
  | StatOSError e => if ignore_error e then inr false else inl e
  | StatValueError => inr false
  end.

(** [get_path_ancestry], where the exception of [path.is_dir()] leaves the
    function. *)
Definition get_path_ancestry (os_stat : Path -> stat_outcome) (path : Path)
  : errno + list Path :=
  let reverse_parents := rev (parents path) in
  match is_dir os_stat path with
  | inl e => inl e
  | inr true => inr (reverse_parents ++ [path])
  | inr false => inr reverse_parents
  end.

End Raising.

(** The node [Path.is_dir] sees when it returns. *)
Definition node_of (outcome : stat_outcome) : node :=
  match outcome with
  | StatDir => Dir
  | StatNotDir => File
  | StatOSError _ | StatValueError => Missing
  end.

(** The filesystem of the functions above, for the answers of [os.stat]. *)
Definition fs_view (os_stat : Path -> stat_outcome)
           (resolve_path : Path -> Path) : FS :=
  mkFS (fun p => node_of (os_stat p)) resolve_path.

(** Only the root exists, and [os.stat] refuses the name of [/x/y] as too
    long. *)
Definition os_name_too_long (p : Path) : stat_outcome :=
  if path_eqb p (posix []) then StatDir
  else if path_eqb p (posix ["x"; "y"]) then StatOSError ENAMETOOLONG
  else StatOSError ENOENT.

Example ancestry_file :
  get_path_ancestry fs_project (posix ["a"; "b"; "c"; "file.txt"])
  = [posix []; posix ["a"]; posix ["a"; "b"]; posix ["a"; "b"; "c"]].
Proof. reflexivity. Qed.

Example ancestry_dir :
  get_path_ancestry fs_project (posix ["a"; "b"])
  = [posix []; posix ["a"]; posix ["a"; "b"]].
Proof. reflexivity. Qed.

Example common_root_files :
  get_common_root fs_project
    [posix ["a"; "b"; "c"; "file.txt"]; posix ["a"; "b"; "d"; "file2.txt"]]
  = inr (posix ["a"; "b"]).
Proof. reflexivity. Qed.

Example common_root_drives :
  get_common_root fs_drives
    [mkPath (drive "C") ["x"; "y"]; mkPath (drive "D") ["x"; "y"]]
  = inl (NoCommonRoot
           [mkPath (drive "C") ["x"; "y"]; mkPath (drive "D") ["x"; "y"]]).
Proof. reflexivity. Qed.

Example common_root_uneven :
  get_common_root fs_project
    [posix ["a"]; posix ["a"; "b"; "c"; "file.txt"]]
  = inr (posix ["a"]).
Proof. reflexivity. Qed.

(** ** Equality of paths *)

Lemma segments_eqb_eq (xs ys : list string) :
  segments_eqb xs ys = true <-> xs = ys.
Proof.
  revert ys; induction xs as [|x xs IH]; intros [|y ys]; simpl;
    try (split; congruence).
  rewrite andb_true_iff, String.eqb_eq, IH.
  split; [intros [-> ->]; reflexivity | intros E; inversion E; auto].
Qed.

Lemma path_eqb_eq (p q : Path) : path_eqb p q = true <-> p = q.
Proof.
  destruct p as [a xs], q as [b ys]; unfold path_eqb; simpl.
  rewrite andb_true_iff, String.eqb_eq, segments_eqb_eq.
  split; [intros [-> ->]; reflexivity | intros E; inversion E; auto].
Qed.

(** ** Ancestor chains as prefixes *)

Lemma prefix_full (p : Path) : prefix p (length (segments p)) = p.
Proof. destruct p as [a xs]; unfold prefix; simpl; now rewrite firstn_all. Qed.

Lemma prefix_0 (p : Path) : prefix p 0 = root (anchor p).
Proof. reflexivity. Qed.

Lemma rev_map_seq (A : Type) (f g : nat -> A) (n : nat) :
  (forall idx, idx < n -> f idx = g (n - idx - 1)) ->
  rev (map f (seq 0 n)) = map g (seq 0 n).
Proof.
  revert f g; induction n as [|n IH]; intros f g H; [reflexivity|].
  rewrite seq_S at 1; simpl.
  rewrite map_app, rev_app_distr; simpl.
  rewrite <- seq_shift, map_map.
  f_equal.
  - rewrite H by lia. f_equal; lia.
  - apply IH. intros idx Hidx. rewrite H by lia. f_equal; lia.
Qed.

Lemma reverse_parents_prefixes (p : Path) :
  rev (parents p) = map (prefix p) (seq 0 (length (segments p))).
Proof.
  unfold parents, parents_len. apply rev_map_seq.
  intros idx Hidx; unfold parents_getitem, parents_len, prefix.
  reflexivity.
Qed.

Lemma ancestry_prefixes (fs : FS) (p : Path) :
  get_path_ancestry fs p = map (prefix p) (seq 0 (chain_len fs p)).
Proof.
  unfold get_path_ancestry, chain_len.
  rewrite reverse_parents_prefixes.
  destruct (is_dir fs p).
  - rewrite Nat.add_1_r, seq_S, map_app; simpl. now rewrite prefix_full.
  - now rewrite Nat.add_0_r.
Qed.

Lemma ancestry_length (fs : FS) (p : Path) :
  length (get_path_ancestry fs p) = chain_len fs p.
Proof. now rewrite ancestry_prefixes, length_map, length_seq. Qed.

Lemma ancestry_nth (fs : FS) (p q : Path) (i : nat) :
  nth_error (get_path_ancestry fs p) i = Some q
  <-> i < chain_len fs p /\ q = prefix p i.
Proof.
  rewrite ancestry_prefixes. split.
  - intros H.
    assert (Hi : i < chain_len fs p).
    { assert (Hn : nth_error (map (prefix p) (seq 0 (chain_len fs p))) i
                   <> None) by congruence.
      apply nth_error_Some in Hn.
      now rewrite length_map, length_seq in Hn. }
    split; [exact Hi|].
    rewrite nth_error_map, nth_error_seq in H.
    apply Nat.ltb_lt in Hi. rewrite Hi in H. simpl in H. congruence.
  - intros [Hi ->].
    rewrite nth_error_map, nth_error_seq.
    apply Nat.ltb_lt in Hi. now rewrite Hi.
Qed.

(** ** Rows of [zip_star] *)

Section ZipRows.
Variable A : Type.

Lemma heads_column (ls : list (list A)) (hs : list A) :
  heads ls = Some hs <-> column 0 ls hs.
Proof.
  unfold column. revert hs; induction ls as [|l ls IH]; intros hs; simpl.
  - split; [intros E; inversion E; constructor | intros H; inversion H; auto].
  - destruct l as [|x l].
    + split; [discriminate | intros H; inversion H; discriminate].
    + destruct (heads ls) as [hs'|].
      * split.
        -- intros E; inversion E; subst. constructor; [reflexivity|].
           now apply IH.
        -- intros H; inversion H as [|? y ? ys Hx Hrest]; subst.
           simpl in Hx. inversion Hx; subst.
           apply IH in Hrest. now inversion Hrest.
      * split; [discriminate|].
        intros H; inversion H as [|? y ? ys Hx Hrest]; subst.
        apply IH in Hrest. discriminate.
Qed.

Lemma column_tl (i : nat) (ls : list (list A)) (row : list A) :
  column i (map (@tl A) ls) row <-> column (S i) ls row.
Proof.
  unfold column. revert row; induction ls as [|l ls IH]; intros row; simpl.
  - split; intros H; inversion H; constructor.
  - split; intros H; inversion H as [|? y ? ys Hx Hrest]; subst;
      (constructor; [|now apply IH]).
    + destruct l; simpl in *; [now destruct i|assumption].
    + destruct l; simpl in *; [discriminate|assumption].
Qed.

Lemma column_S_heads (i : nat) (ls : list (list A)) (row : list A) :
  column (S i) ls row -> exists hs, heads ls = Some hs.
Proof.
  unfold column. revert row; induction ls as [|l ls IH]; intros row H; simpl.
  - now exists [].
  - inversion H as [|? y ? ys Hx Hrest]; subst.
    destruct l as [|x l]; [discriminate|].
    destruct (IH _ Hrest) as [hs ->]. now eexists.
Qed.

Lemma zip_rows_nth (l : list A) (others : list (list A)) (i : nat)
      (row : list A) :
  nth_error (zip_rows l others) i = Some row <-> column i (l :: others) row.
Proof.
  revert others i row; induction l as [|x l IH]; intros others i row; simpl.
  - split.
    + now destruct i.
    + intros H; inversion H as [|? y ? ys Hx Hrest]; subst.
      now destruct i.
  - destruct i as [|i].
    + destruct (heads others) as [hs|] eqn:Hh; simpl.
      * split.
        -- intros E; inversion E; subst.
           constructor; [reflexivity | now apply heads_column].
        -- intros H; inversion H as [|? y ? ys Hx Hrest]; subst.
           simpl in Hx; inversion Hx; subst.
           apply heads_column in Hrest. congruence.
      * split; [discriminate|].
        intros H; inversion H as [|? y ? ys Hx Hrest]; subst.
        apply heads_column in Hrest. congruence.
    + destruct (heads others) as [hs|] eqn:Hh; simpl.
      * rewrite IH. split.
        -- intros H; inversion H as [|? y ? ys Hx Hrest]; subst.
           constructor; [exact Hx | now apply column_tl].
        -- intros H; inversion H as [|? y ? ys Hx Hrest]; subst.
           constructor; [exact Hx | now apply column_tl].
      * split; [now destruct i|].
        intros H; inversion H as [|? y ? ys Hx Hrest]; subst.
        apply column_S_heads in Hrest. destruct Hrest as [hs E].
        congruence.
Qed.

(** Row [i] of [zip] exists exactly when there is at least one chain and
    every chain has an element at position [i]. *)
Lemma zip_star_nth (ls : list (list A)) (i : nat) (row : list A) :
  nth_error (zip_star ls) i = Some row <-> ls <> [] /\ column i ls row.
Proof.
  destruct ls as [|l others]; simpl.
  - split; [now destruct i | intros [H _]; congruence].
  - rewrite zip_rows_nth. split; [intros H; split; [discriminate|exact H]|].
    now intros [_ H].
Qed.

Lemma column_length (i : nat) (ls : list (list A)) (row : list A) :
  column i ls row -> length row = length ls.
Proof. intros H; symmetry; exact (Forall2_length H). Qed.

(** A column all of whose entries are [r]. *)
Lemma column_const (i : nat) (ls : list (list A)) (r : A) :
  Forall (fun l => nth_error l i = Some r) ls
  <-> column i ls (map (fun _ => r) ls).
Proof.
  unfold column. induction ls as [|l ls IH]; simpl.
  - split; constructor.
  - split; intros H; inversion H; subst; constructor; auto; now apply IH.
Qed.

Lemma column_Forall (i : nat) (ls : list (list A)) (row : list A) (r : A) :
  column i ls row -> Forall (eq r) row ->
  Forall (fun l => nth_error l i = Some r) ls.
Proof.
  unfold column. induction 1 as [|l x ls row Hx _ IH]; intros Hr.
  - constructor.
  - inversion Hr; subst. constructor; auto.
Qed.
End ZipRows.

(** ** The scanning loop *)

Lemma forallb_path_eqb (first : Path) (others : list Path) :
  forallb (fun path => path_eqb path first) others = true
  <-> Forall (eq first) others.
Proof.
  rewrite forallb_forall, Forall_forall.
  split; intros H x Hx.
  - symmetry. apply path_eqb_eq. now apply H.
  - apply path_eqb_eq. symmetry. now apply H.
Qed.

Lemma uniformb_true (row : list Path) :
  uniformb row = true <-> exists q, row <> [] /\ Forall (eq q) row.
Proof.
  destruct row as [|first others]; simpl.
  - split; [discriminate | intros (q & H & _); congruence].
  - rewrite forallb_path_eqb. split.
    + intros H. exists first. split; [discriminate|]. now constructor.
    + intros (q & _ & H). inversion H; subst. assumption.
Qed.

Lemma scan_app (l1 l2 : list (list Path)) :
  scan (l1 ++ l2)
  = match scan l1 with Some r => Some r | None => scan l2 end.
Proof.
  induction l1 as [|row l1 IH]; simpl; [reflexivity|].
  destruct row as [|first others]; [reflexivity|].
  now destruct (forallb _ others).
Qed.

Lemma scan_single (row : list Path) :
  row <> [] ->
  scan [row] = if uniformb row then option_map inr (hd_error row) else None.
Proof.
  destruct row as [|first others]; [congruence|]; intros _; simpl.
  now destruct (forallb _ others).
Qed.

Lemma scan_None (rows : list (list Path)) :
  scan rows = None
  <-> Forall (fun row => row <> [] /\ uniformb row = false) rows.
Proof.
  induction rows as [|row rows IH]; simpl.
  - split; [constructor | reflexivity].
  - destruct row as [|first others].
    + split; [discriminate|]. intros H; inversion H; subst. tauto.
    + simpl. destruct (forallb _ others) eqn:E.
      * split; [discriminate|].
        intros H; inversion H as [|? ? [_ Hu] _]; subst. simpl in Hu.
        congruence.
      * rewrite IH. split.
        -- intros H; constructor; [split; [discriminate|exact E]|exact H].
        -- intros H; now inversion H.
Qed.

(** The reversed rows are scanned from the deepest position: the loop
    returns the entry of the last row whose entries are all equal. *)
Lemma scan_rev_inr (rows : list (list Path)) (r : Path) :
  Forall (fun row => row <> []) rows ->
  scan (rev rows) = Some (inr r)
  <-> exists i row,
        nth_error rows i = Some row /\ Forall (eq r) row
        /\ forall j row', i < j -> nth_error rows j = Some row' ->
                          uniformb row' = false.
Proof.
  induction rows as [|row0 rows IH]; intros Hne.
  - simpl. split; [discriminate|]. intros (i & row & H & _). now destruct i.
  - inversion Hne as [|? ? Hrow0 Hrows]; subst.
    specialize (IH Hrows). simpl rev. rewrite scan_app.
    destruct (scan (rev rows)) as [x|] eqn:Hs.
    + split.
      * intros E; inversion E; subst x.
        destruct (proj1 IH eq_refl) as (i & row & Hi & Hr & Hlast).
        exists (S i), row. repeat split; auto.
        intros [|j] row' Hj Hrow'; [lia|]. simpl in Hrow'.
        apply (Hlast j); [lia|assumption].
      * intros (i & row & Hi & Hr & Hlast).
        destruct i as [|i].
        -- exfalso.
           assert (Hn : scan (rev rows) = None).
           { apply scan_None, Forall_forall. intros row' Hin.
             assert (Hin' : In row' rows) by (apply in_rev; exact Hin).
             destruct (In_nth_error _ _ Hin') as [j Hj].
             split.
             - rewrite Forall_forall in Hrows. now apply Hrows.
             - apply (Hlast (S j)); [lia|exact Hj]. }
           congruence.
        -- apply IH. exists i, row. repeat split; auto.
           intros j row' Hj Hrow'. apply (Hlast (S j)); [lia|exact Hrow'].
    + rewrite scan_single by assumption. split.
      * intros E. destruct (uniformb row0) eqn:Hu; [|discriminate].
        destruct row0 as [|first others]; [discriminate|].
        simpl in E; inversion E; subst first.
        exists 0, (r :: others). repeat split.
        -- constructor; [reflexivity|]. now apply forallb_path_eqb.
        -- intros [|j] row' Hj Hrow'; [lia|]. simpl in Hrow'.
           apply scan_None in Hs. rewrite Forall_forall in Hs.
           apply Hs. apply -> in_rev.
           eapply nth_error_In; eassumption.
      * intros (i & row & Hi & Hr & Hlast).
        destruct i as [|i].
        -- simpl in Hi; inversion Hi; subst row.
           destruct row0 as [|first others]; [congruence|].
           inversion Hr; subst. simpl.
           assert (E : forallb (fun path => path_eqb path first) others = true)
             by now apply forallb_path_eqb.
           now rewrite E.
        -- exfalso. simpl in Hi.
           apply scan_None in Hs. rewrite Forall_forall in Hs.
           assert (Hin : In row (rev rows)).
           { apply -> in_rev. eapply nth_error_In; eassumption. }
           destruct (Hs _ Hin) as [Hn Hu].
           assert (Ht : uniformb row = true)
             by (apply uniformb_true; exists r; auto).
           congruence.
Qed.

Lemma scan_no_unpack_error (rows : list (list Path)) :
  Forall (fun row => row <> []) rows -> scan rows <> Some (inl UnpackError).
Proof.
  induction 1 as [|row rows Hrow _ IH]; simpl; [discriminate|].
  destruct row as [|first others]; [congruence|].
  destruct (forallb _ others); [discriminate|exact IH].
Qed.

Lemma scan_inl (rows : list (list Path)) (e : error) :
  scan rows = Some (inl e) -> e = UnpackError.
Proof.
  induction rows as [|row rows IH]; simpl; [discriminate|].
  destruct row as [|first others]; [congruence|].
  destruct (forallb _ others); [discriminate|exact IH].
Qed.

(** ** What [get_common_root] returns *)

Lemma zip_star_rows_nonempty (A : Type) (cs : list (list A)) :
  Forall (fun row => row <> []) (zip_star cs).
Proof.
  apply Forall_forall. intros row Hin.
  destruct (In_nth_error _ _ Hin) as [i Hi].
  apply zip_star_nth in Hi. destruct Hi as [Hcs Hcol].
  apply column_length in Hcol.
  destruct row; [|discriminate].
  destruct cs; [congruence|discriminate].
Qed.

Lemma const_row_uniform (A : Type) (cs : list A) (q : Path) :
  Forall (eq q) (map (fun _ => q) cs).
Proof. induction cs; simpl; constructor; auto. Qed.

Lemma scan_zip_inr (cs : list (list Path)) (r : Path) :
  scan (rev (zip_star cs)) = Some (inr r)
  <-> cs <> [] /\ exists i, last_shared cs i r.
Proof.
  rewrite scan_rev_inr by apply zip_star_rows_nonempty.
  unfold last_shared, shared_at. split.
  - intros (i & row & Hi & Hr & Hlast).
    apply zip_star_nth in Hi. destruct Hi as [Hcs Hcol].
    split; [exact Hcs|]. exists i. split.
    + eapply column_Forall; eassumption.
    + intros j q Hj Hq.
      assert (Hrow : nth_error (zip_star cs) j = Some (map (fun _ => q) cs)).
      { apply zip_star_nth. split; [exact Hcs|]. now apply column_const. }
      apply Hlast in Hrow; [|exact Hj].
      assert (Ht : uniformb (map (fun _ => q) cs) = true).
      { apply uniformb_true. exists q. split.
        - destruct cs; [congruence|discriminate].
        - apply const_row_uniform. }
      congruence.
  - intros (Hcs & i & Hi & Hlast).
    exists i, (map (fun _ => r) cs). repeat split.
    + apply zip_star_nth. split; [exact Hcs|]. now apply column_const.
    + apply const_row_uniform.
    + intros j row' Hj Hrow'.
      destruct (uniformb row') eqn:Hu; [exfalso|reflexivity].
      apply uniformb_true in Hu. destruct Hu as (q & _ & Hq).
      apply zip_star_nth in Hrow'. destruct Hrow' as [_ Hcol].
      apply (Hlast j q Hj). eapply column_Forall; eassumption.
Qed.

Lemma chains_nil (fs : FS) (paths : list Path) :
  chains fs paths = [] <-> paths = [].
Proof. unfold chains. destruct paths; simpl; split; congruence. Qed.

(** Success: the result is the element at the last position shared by all
    the chains. *)
Lemma common_root_inr (fs : FS) (paths : list Path) (r : Path) :
  get_common_root fs paths = inr r
  <-> paths <> [] /\ exists i, last_shared (chains fs paths) i r.
Proof.
  rewrite <- (chains_nil fs paths), <- scan_zip_inr.
  unfold get_common_root, chains.
  destruct (scan _) as [[e|q]|]; split; congruence.
Qed.

(** Failure is always the function's own [raise]. *)
Lemma common_root_inl (fs : FS) (paths : list Path) (e : error) :
  get_common_root fs paths = inl e ->
  e = NoCommonRoot (map (resolve fs) paths).
Proof.
  unfold get_common_root.
  destruct (scan _) as [[e'|q]|] eqn:Hs; intros E; inversion E; subst.
  - exfalso. pose proof (scan_inl _ Hs); subst.
    revert Hs. apply scan_no_unpack_error.
    apply Forall_rev, zip_star_rows_nonempty.
  - reflexivity.
Qed.

Lemma last_shared_unique (cs : list (list Path)) (i j : nat) (r q : Path) :
  cs <> [] -> last_shared cs i r -> last_shared cs j q -> i = j /\ r = q.
Proof.
  intros Hcs [Hi Hli] [Hj Hlj].
  assert (E : i = j).
  { destruct (Nat.lt_trichotomy i j) as [H|[H|H]]; [|exact H|].
    - exfalso. exact (Hli j q H Hj).
    - exfalso. exact (Hlj i r H Hi). }
  split; [exact E|]. subst j.
  destruct cs as [|c cs]; [congruence|].
  inversion Hi; inversion Hj; subst. congruence.
Qed.

(** ** Chains of resolved paths *)

Lemma shared_at_chains (fs : FS) (paths : list Path) (i : nat) (r : Path) :
  shared_at (chains fs paths) i r
  <-> Forall (fun p => i < chain_len fs (resolve fs p)
                       /\ r = prefix (resolve fs p) i) paths.
Proof.
  unfold shared_at, chains. rewrite !Forall_map.
  split; apply Forall_impl; intros p H; now apply ancestry_nth.
Qed.

Lemma chain_len_pos (fs : FS) (p : Path) :
  root_is_directory fs p -> 0 < chain_len fs p.
Proof.
  unfold root_is_directory, chain_len, is_dir, root.
  destruct p as [a [|s segs]]; simpl; [|lia].
  intros ->. lia.
Qed.

Lemma chain_len_le (fs : FS) (p : Path) :
  chain_len fs p <= S (length (segments p)).
Proof. unfold chain_len. destruct (is_dir fs p); lia. Qed.

Lemma prefix_segments_length (p : Path) (i : nat) :
  i <= length (segments p) -> length (segments (prefix p i)) = i.
Proof. intros H; unfold prefix; simpl. rewrite length_firstn. lia. Qed.

Lemma prefix_prefix (p : Path) (i j : nat) :
  j <= i -> prefix (prefix p i) j = prefix p j.
Proof.
  intros H; unfold prefix; simpl. rewrite firstn_firstn.
  now rewrite Nat.min_l by exact H.
Qed.

Lemma prefix_parent (p : Path) (i : nat) :
  i < length (segments p) -> parent (prefix p (S i)) = prefix p i.
Proof.
  intros H; unfold parent, prefix; cbn [anchor segments].
  now rewrite removelast_firstn.
Qed.

Lemma parent_prefix (p : Path) :
  parent p = prefix p (length (segments p) - 1).
Proof.
  unfold parent, prefix. f_equal.
  destruct (segments p) as [|s segs] using rev_ind; [reflexivity|].
  rewrite removelast_last, length_app; simpl.
  replace (length segs + 1 - 1) with (length segs + 0) by lia.
  now rewrite firstn_app_2, app_nil_r.
Qed.

(** Chains that agree at a position agree at every shallower one. *)
Lemma shared_at_below (fs : FS) (paths : list Path) (i j : nat) (r : Path) :
  shared_at (chains fs paths) i r -> j <= i ->
  shared_at (chains fs paths) j (prefix r j).
Proof.
  rewrite !shared_at_chains. intros H Hj. revert H.
  apply Forall_impl. intros p [Hi ->].
  split; [lia|]. now apply prefix_prefix.
Qed.

Lemma scan_zip_None (cs : list (list Path)) :
  scan (rev (zip_star cs)) = None
  <-> cs = [] \/ forall i r, ~ shared_at cs i r.
Proof.
  rewrite scan_None. split.
  - intros H. destruct cs as [|c cs']; [now left|right].
    intros i r Hs. rewrite Forall_forall in H.
    destruct (H (map (fun _ => r) (c :: cs'))) as [_ Hu].
    + apply -> in_rev. apply nth_error_In with (n := i).
      apply zip_star_nth. split; [discriminate|]. now apply column_const.
    + simpl in Hu. rewrite (proj2 (forallb_path_eqb r _)) in Hu;
        [discriminate | apply const_row_uniform].
  - intros H. apply Forall_forall. intros row Hin.
    assert (Hin' : In row (zip_star cs)) by (apply in_rev; exact Hin).
    split.
    + pose proof (zip_star_rows_nonempty cs) as Hne.
      rewrite Forall_forall in Hne. now apply Hne.
    + destruct (uniformb row) eqn:Hu; [exfalso|reflexivity].
      apply uniformb_true in Hu. destruct Hu as (q & _ & Hq).
      destruct (In_nth_error _ _ Hin') as [i Hi].
      apply zip_star_nth in Hi. destruct Hi as [Hcs Hcol].
      destruct H as [H|H]; [congruence|].
      apply (H i q). eapply column_Forall; eassumption.
Qed.

(** Failure: there is no chain at all, or no position is shared. *)
Lemma common_root_fails (fs : FS) (paths : list Path) :
  get_common_root fs paths = inl (NoCommonRoot (map (resolve fs) paths))
  <-> paths = [] \/ forall i r, ~ shared_at (chains fs paths) i r.
Proof.
  rewrite <- (chains_nil fs paths), <- scan_zip_None.
  unfold get_common_root, chains.
  destruct (scan _) as [[e|q]|] eqn:Hs.
  - exfalso. pose proof (scan_inl _ Hs); subst.
    revert Hs. apply scan_no_unpack_error.
    apply Forall_rev, zip_star_rows_nonempty.
  - split; discriminate.
  - split; reflexivity.
Qed.

Lemma common_root_total (fs : FS) (paths : list Path) :
  get_common_root fs paths = inl (NoCommonRoot (map (resolve fs) paths))
  \/ exists r, get_common_root fs paths = inr r.
Proof.
  destruct (get_common_root fs paths) as [e|r] eqn:E.
  - left. now rewrite (common_root_inl _ _ E).
  - right. now exists r.
Qed.

(** On a filesystem with one root every chain starts with that root. *)
Lemma root_shared (fs : FS) (a : string) (paths : list Path) :
  fs_root fs a -> shared_at (chains fs paths) 0 (root a).
Proof.
  intros [Hdir Hanchor]. apply shared_at_chains, Forall_forall.
  intros p _. split.
  - apply chain_len_pos. unfold root_is_directory. now rewrite Hanchor.
  - rewrite prefix_0. now rewrite Hanchor.
Qed.

(** ** The scenario of two files below [/a/b] *)

(** C1. For the inputs [/a/b/c/file.txt] and [/a/b/d/file2.txt], whatever
    else the filesystem holds, [get_common_root] returns [/a/b]; [/a/b] sits
    at position 2 of both ancestor chains and the chains agree at no deeper
    position, so it is the first agreement met when scanning from the leaf
    end toward the root. *)
Theorem common_root_of_two_files (fs : FS) :
  resolve fs file_txt = file_txt ->
  resolve fs file2_txt = file2_txt ->
  get_common_root fs [file_txt; file2_txt] = inr (posix ["a"; "b"])
  /\ last_shared (chains fs [file_txt; file2_txt]) 2 (posix ["a"; "b"]).
Proof.
  intros H1 H2.
  assert (E : get_common_root fs [file_txt; file2_txt]
              = inr (posix ["a"; "b"])).
  { unfold get_common_root. cbn [map]. rewrite H1, H2.
    unfold get_path_ancestry.
    destruct (is_dir fs file_txt), (is_dir fs file2_txt); reflexivity. }
  split; [exact E|].
  apply common_root_inr in E. destruct E as (_ & i & Hi).
  assert (i = 2); [|now subst].
  destruct Hi as [Hs _]. apply shared_at_chains in Hs.
  inversion Hs as [|? ? [_ Hp] _]; subst. rewrite H1 in Hp.
  unfold prefix, file_txt, posix in Hp; simpl in Hp.
  do 5 (try destruct i as [|i]); simpl in Hp; try discriminate.
  reflexivity.
Qed.

Lemma common_root_of_two_files_witness :
  get_common_root fs_project [file_txt; file2_txt] = inr (posix ["a"; "b"])
  /\ last_shared (chains fs_project [file_txt; file2_txt]) 2
       (posix ["a"; "b"]).
Proof.
  apply (@common_root_of_two_files fs_project); reflexivity.
Defined.

(** C10. Applied to the empty collection, [get_common_root] returns no path:
    there is no row to scan and the function raises its error. *)
Theorem common_root_of_nothing (fs : FS) :
  get_common_root fs [] = inl (NoCommonRoot [])
  /\ zip_star (map (get_path_ancestry fs) (map (resolve fs) [])) = [].
Proof. split; reflexivity. Qed.

(** C7. Chains of different lengths are compared from the root end, and
    only at positions where every chain has an element: [get_common_root]
    returns [r] exactly when [r] stands, in every chain, at the last such
    position where all the chains hold the same element; the chains then
    agree at every shallower position too. *)
Theorem common_root_root_aligned (fs : FS) (paths : list Path) (r : Path) :
  get_common_root fs paths = inr r
  <-> paths <> []
      /\ exists i,
           Forall (fun c => i < length c) (chains fs paths)
           /\ Forall (fun c => nth_error c i = Some r) (chains fs paths)
           /\ (forall j, j <= i ->
                 exists q, Forall (fun c => nth_error c j = Some q)
                                  (chains fs paths))
           /\ (forall j q, i < j ->
                 Forall (fun c => j < length c) (chains fs paths) ->
                 ~ Forall (fun c => nth_error c j = Some q) (chains fs paths)).
Proof.
  rewrite common_root_inr. unfold last_shared.
  split; intros (Hne & i & H); (split; [exact Hne|]); exists i.
  - destruct H as [Hs Hlast]. repeat split.
    + revert Hs. apply Forall_impl. intros c Hc.
      apply nth_error_Some. congruence.
    + exact Hs.
    + intros j Hj. exists (prefix r j).
      exact (shared_at_below _ _ Hs Hj).
    + intros j q Hj _. now apply Hlast.
  - destruct H as (_ & Hs & _ & Hlast). split; [exact Hs|].
    intros j q Hj Hq. apply (Hlast j q Hj); [|exact Hq].
    revert Hq. apply Forall_impl. intros c Hc.
    apply nth_error_Some. congruence.
Qed.

(** C2. For a non-empty collection, [get_common_root] raises its error
    exactly when no position holds the same element in all the chains; on a
    filesystem with a single root, position 0 holds that root in every chain
    and the call returns a path. *)
Theorem common_root_error_iff (fs : FS) (paths : list Path) :
  paths <> [] ->
  (get_common_root fs paths = inl (NoCommonRoot (map (resolve fs) paths))
   <-> ~ exists i r, shared_at (chains fs paths) i r)
  /\ ((exists e, get_common_root fs paths = inl e)
      <-> ~ exists i r, shared_at (chains fs paths) i r)
  /\ (single_root fs ->
      (exists a, shared_at (chains fs paths) 0 (root a))
      /\ exists r, get_common_root fs paths = inr r).
Proof.
  intros Hne.
  assert (Hfail : get_common_root fs paths
                  = inl (NoCommonRoot (map (resolve fs) paths))
                  <-> ~ exists i r, shared_at (chains fs paths) i r).
  { rewrite common_root_fails. split.
    - intros [H|H]; [congruence|]. intros (i & r & Hs). exact (H i r Hs).
    - intros H. right. intros i r Hs. apply H. now exists i, r. }
  split; [exact Hfail|]. split.
  - rewrite <- Hfail. split.
    + intros [e He]. now rewrite (common_root_inl _ _ He) in He.
    + intros H. eexists; exact H.
  - intros [a Ha]. pose proof (root_shared paths Ha) as Hs.
    split; [now exists a|].
    destruct (common_root_total fs paths) as [E|E]; [exfalso|exact E].
    apply Hfail in E. apply E. now exists 0, (root a).
Qed.

Lemma common_root_error_iff_witness :
  exists r, get_common_root fs_project [file_txt; file2_txt] = inr r.
Proof.
  apply (@common_root_error_iff fs_project [file_txt; file2_txt]).
  - discriminate.
  - exists "/". split; [reflexivity | intros p; reflexivity].
Defined.

(** ** Collections whose members resolve to one path *)

Lemma deepest_element (fs : FS) (R : Path) :
  prefix R (chain_len fs R - 1)
  = if is_dir fs R then R else parent R.
Proof.
  unfold chain_len. destruct (is_dir fs R).
  - replace (length (segments R) + 1 - 1) with (length (segments R)) by lia.
    apply prefix_full.
  - rewrite Nat.add_0_r. symmetry. apply parent_prefix.
Qed.

Lemma common_root_same (fs : FS) (paths : list Path) (R : Path) :
  paths <> [] ->
  Forall (fun p => resolve fs p = R) paths ->
  0 < chain_len fs R ->
  get_common_root fs paths = inr (prefix R (chain_len fs R - 1)).
Proof.
  intros Hne Hall Hpos. apply common_root_inr. split; [exact Hne|].
  exists (chain_len fs R - 1). split.
  - apply shared_at_chains. revert Hall. apply Forall_impl.
    intros p ->. split; [lia|reflexivity].
  - intros j q Hj Hs. apply shared_at_chains in Hs.
    destruct paths as [|p paths]; [congruence|].
    inversion Hs as [|? ? [Hlt _] _]; inversion Hall; subst. lia.
Qed.

(** C3. For a single path [P] with canonical form [R], [get_common_root
    [P]] is [R] itself when [R] is a directory and the parent of [R]
    otherwise; giving the same path twice changes nothing, so the file
    [/a/b/c] given twice yields [/a/b]. *)
Theorem common_root_single (fs : FS) (P : Path) :
  root_is_directory fs (resolve fs P) ->
  get_common_root fs [P]
  = inr (if is_dir fs (resolve fs P) then resolve fs P
         else parent (resolve fs P))
  /\ get_common_root fs [P; P] = get_common_root fs [P]
  /\ (resolve fs P = posix ["a"; "b"; "c"] ->
      is_dir fs (posix ["a"; "b"; "c"]) = false ->
      get_common_root fs [P; P] = inr (posix ["a"; "b"])).
Proof.
  intros Hroot. pose proof (chain_len_pos Hroot) as Hpos.
  assert (E1 : get_common_root fs [P]
               = inr (prefix (resolve fs P) (chain_len fs (resolve fs P) - 1))).
  { apply common_root_same; [discriminate| |exact Hpos].
    repeat constructor. }
  assert (E2 : get_common_root fs [P; P]
               = inr (prefix (resolve fs P) (chain_len fs (resolve fs P) - 1))).
  { apply common_root_same; [discriminate| |exact Hpos].
    repeat constructor. }
  rewrite deepest_element in E1, E2.
  split; [exact E1|]. split; [congruence|].
  intros HR Hfile. rewrite E2, HR, Hfile. reflexivity.
Qed.

Lemma common_root_single_witness :
  get_common_root fs_project [posix ["a"; "b"]] = inr (posix ["a"; "b"])
  /\ get_common_root fs_project [file_txt] = inr (posix ["a"; "b"; "c"])
  /\ get_common_root fs_file [posix ["a"; "b"; "c"]; posix ["a"; "b"; "c"]]
     = inr (posix ["a"; "b"]).
Proof.
  split; [|split].
  - exact (proj1 (@common_root_single fs_project (posix ["a"; "b"])
                    eq_refl)).
  - exact (proj1 (@common_root_single fs_project file_txt eq_refl)).
  - exact (proj2 (proj2 (@common_root_single fs_file (posix ["a"; "b"; "c"])
                           eq_refl))
                 eq_refl eq_refl).
Defined.

(** C4. Two paths below the same filesystem root whose ancestor chains have
    nothing but that root in common have the root as their common root. *)
Theorem common_root_is_root (fs : FS) (a : string) (p1 p2 : Path) :
  fs_root fs a ->
  (forall q, In q (get_path_ancestry fs (resolve fs p1)) ->
             In q (get_path_ancestry fs (resolve fs p2)) -> q = root a) ->
  get_common_root fs [p1; p2] = inr (root a).
Proof.
  intros Ha Hdisj. apply common_root_inr. split; [discriminate|].
  exists 0. split; [now apply root_shared|].
  intros j q Hj Hs. unfold shared_at, chains in Hs. cbn [map] in Hs.
  inversion Hs as [|? ? H1 Hs']; subst.
  inversion Hs' as [|? ? H2 _]; subst.
  assert (Hq : q = root a).
  { apply Hdisj; eapply nth_error_In; eassumption. }
  apply ancestry_nth in H1. destruct H1 as [Hlt Hp].
  pose proof (chain_len_le fs (resolve fs p1)) as Hle.
  assert (Hlen : length (segments q) = j).
  { rewrite Hp. apply prefix_segments_length. lia. }
  rewrite Hq in Hlen. simpl in Hlen. lia.
Qed.

Lemma common_root_is_root_witness :
  get_common_root fs_project [file_txt; posix ["x"; "y"]] = inr (posix []).
Proof.
  apply (@common_root_is_root fs_project "/" file_txt (posix ["x"; "y"])).
  - split; [reflexivity | intros p; reflexivity].
  - intros q H1 H2. simpl in H1, H2.
    repeat (destruct H1 as [H1|H1]; [subst q|]); try contradiction;
      repeat (destruct H2 as [H2|H2]; try discriminate H2);
      try contradiction; reflexivity.
Defined.

(** ** Order of the inputs *)

Lemma last_shared_perm (cs cs' : list (list Path)) (i : nat) (r : Path) :
  Permutation cs cs' -> last_shared cs i r -> last_shared cs' i r.
Proof.
  intros Hp [Hs Hlast]. split.
  - exact (Permutation_Forall Hp Hs).
  - intros j q Hj Hq. apply (Hlast j q Hj).
    exact (Permutation_Forall (Permutation_sym Hp) Hq).
Qed.

Lemma common_root_inr_perm (fs : FS) (paths paths' : list Path) (r : Path) :
  Permutation paths paths' ->
  get_common_root fs paths = inr r -> get_common_root fs paths' = inr r.
Proof.
  intros Hp H. apply common_root_inr in H. destruct H as (Hne & i & Hi).
  apply common_root_inr. split.
  - intros ->. apply Permutation_sym, Permutation_nil in Hp. congruence.
  - exists i. revert Hi. apply last_shared_perm.
    unfold chains. now do 2 apply Permutation_map.
Qed.

(** C5. Permuting the collection given to [get_common_root] changes neither
    the path it returns nor whether it fails. *)
Theorem common_root_order_independent (fs : FS) (paths paths' : list Path) :
  Permutation paths paths' ->
  (forall r, get_common_root fs paths = inr r
             <-> get_common_root fs paths' = inr r)
  /\ ((exists e, get_common_root fs paths = inl e)
      <-> (exists e, get_common_root fs paths' = inl e)).
Proof.
  intros Hp. pose proof (Permutation_sym Hp) as Hp'.
  assert (Hr : forall r, get_common_root fs paths = inr r
                         <-> get_common_root fs paths' = inr r).
  { intros r; split; now apply common_root_inr_perm. }
  split; [exact Hr|].
  split; intros [e He].
  - destruct (common_root_total fs paths') as [E|[r E]];
      [eexists; exact E|].
    apply Hr in E. congruence.
  - destruct (common_root_total fs paths) as [E|[r E]];
      [eexists; exact E|].
    apply Hr in E. congruence.
Qed.

Lemma common_root_order_independent_witness :
  get_common_root fs_project [file2_txt; file_txt] = inr (posix ["a"; "b"]).
Proof.
  apply (@common_root_order_independent fs_project
            [file_txt; file2_txt] [file2_txt; file_txt]).
  - apply perm_swap.
  - reflexivity.
Defined.

(** ** Applying [get_common_root] to its own result *)

(** C6, as the specification states it, fails: on a filesystem where only
    the root exists, [/x/y] has the common root [/x], and [/x], which is not
    a directory there, has the common root [/]. *)
Lemma common_root_not_idempotent :
  [posix ["x"; "y"]] <> []
  /\ get_common_root fs_bare [posix ["x"; "y"]] = inr (posix ["x"])
  /\ get_common_root fs_bare [posix ["x"]] = inr (posix [])
  /\ get_common_root fs_bare [posix ["x"]] <> inr (posix ["x"]).
Proof.
  split; [discriminate|].
  split; [reflexivity|].
  split; [reflexivity|discriminate].
Qed.

(** C6, amended. When [get_common_root] succeeds with a result [R] that is
    a directory of the filesystem, [get_common_root [R]] is [R] again. *)
Theorem common_root_idempotent_on_directories
        (fs : FS) (paths : list Path) (R : Path) :
  canonical_resolve fs ->
  get_common_root fs paths = inr R ->
  is_dir fs R = true ->
  get_common_root fs [R] = inr R.
Proof.
  intros Hcanon Hres Hdir.
  apply common_root_inr in Hres. destruct Hres as (Hne & i & Hs & _).
  apply shared_at_chains in Hs.
  destruct paths as [|p paths]; [congruence|].
  inversion Hs as [|? ? [_ HR] _]; subst.
  pose proof (Hcanon p i) as Hfix.
  set (R := prefix (resolve fs p) i) in *.
  assert (Hlen : chain_len fs R = S (length (segments R))).
  { unfold chain_len. rewrite Hdir. lia. }
  rewrite (@common_root_same fs [R] R).
  - rewrite Hlen. simpl. rewrite Nat.sub_0_r. now rewrite prefix_full.
  - discriminate.
  - now repeat constructor.
  - lia.
Qed.

Lemma common_root_idempotent_on_directories_witness :
  get_common_root fs_project [posix ["a"; "b"]] = inr (posix ["a"; "b"]).
Proof.
  apply (@common_root_idempotent_on_directories
           fs_project [file_txt; file2_txt] (posix ["a"; "b"])).
  - intros p k. reflexivity.
  - reflexivity.
  - reflexivity.
Defined.

(** ** The shape of one chain *)

(** C8. The chain of [P] starts at the root above [P]; its element at
    position [i] lies [i] names below that root, so the chain runs from the
    shallowest element to the deepest; each element is the parent of the
    next; no element occurs twice; and the chain of a root is that root
    alone. *)
Theorem ancestry_chain_shape (fs : FS) (P : Path) :
  root_is_directory fs P ->
  hd_error (get_path_ancestry fs P) = Some (root (anchor P))
  /\ (forall i q, nth_error (get_path_ancestry fs P) i = Some q ->
        anchor q = anchor P /\ length (segments q) = i)
  /\ (forall i q q', nth_error (get_path_ancestry fs P) i = Some q ->
        nth_error (get_path_ancestry fs P) (S i) = Some q' ->
        parent q' = q /\ q <> q')
  /\ NoDup (get_path_ancestry fs P)
  /\ (segments P = [] -> get_path_ancestry fs P = [root (anchor P)]).
Proof.
  intros Hroot.
  assert (Hdepth : forall i q, nth_error (get_path_ancestry fs P) i = Some q ->
                     anchor q = anchor P /\ length (segments q) = i).
  { intros i q H. apply ancestry_nth in H. destruct H as [Hlt ->].
    split; [reflexivity|]. apply prefix_segments_length.
    pose proof (chain_len_le fs P). lia. }
  split; [|split; [exact Hdepth|split; [|split]]].
  - assert (H0 : nth_error (get_path_ancestry fs P) 0
                 = Some (root (anchor P))).
    { apply ancestry_nth. split; [now apply chain_len_pos|reflexivity]. }
    destruct (get_path_ancestry fs P); [discriminate|exact H0].
  - intros i q q' Hq Hq'.
    destruct (Hdepth _ _ Hq) as [_ Hl], (Hdepth _ _ Hq') as [_ Hl'].
    split; [|intros ->; lia].
    apply ancestry_nth in Hq, Hq'.
    destruct Hq as [_ ->], Hq' as [Hlt ->].
    apply prefix_parent. pose proof (chain_len_le fs P). lia.
  - apply NoDup_nth_error. intros i j Hi E.
    destruct (nth_error (get_path_ancestry fs P) i) as [q|] eqn:Hq.
    + symmetry in E.
      destruct (Hdepth _ _ Hq) as [_ Hl], (Hdepth _ _ E) as [_ Hl'].
      congruence.
    + apply nth_error_None in Hq. lia.
  - intros Hsegs. unfold root_is_directory, root in Hroot.
    destruct P as [a segs]; simpl in *; subst segs.
    unfold get_path_ancestry, is_dir, root. now rewrite Hroot.
Qed.

Lemma ancestry_chain_shape_witness :
  hd_error (get_path_ancestry fs_project file_txt) = Some (posix [])
  /\ NoDup (get_path_ancestry fs_project file_txt)
  /\ get_path_ancestry fs_project (posix []) = [posix []].
Proof.
  pose proof (@ancestry_chain_shape fs_project file_txt eq_refl) as H.
  pose proof (@ancestry_chain_shape fs_project (posix []) eq_refl) as H0.
  split; [exact (proj1 H)|].
  split; [exact (proj1 (proj2 (proj2 (proj2 H))))|].
  exact (proj2 (proj2 (proj2 (proj2 H0))) eq_refl).
Defined.

(** Where [Path.is_dir] returns its answer, [get_path_ancestry] depends on
    the filesystem through that answer alone, and a path that does not
    exist gets the chain of a file at the same place: its parents from the
    root down, without the path itself, ending at its parent. *)
Lemma ancestry_of_missing (fs : FS) (p : Path) :
  (forall fs', is_dir fs' p = is_dir fs p ->
     get_path_ancestry fs' p = get_path_ancestry fs p)
  /\ length (get_path_ancestry fs p)
     = length (segments p) + (if is_dir fs p then 1 else 0)
  /\ (stat fs p = Missing ->
      is_dir fs p = false
      /\ get_path_ancestry fs p = rev (parents p)
      /\ ~ In p (get_path_ancestry fs p)
      /\ (forall fs', stat fs' p = File ->
            get_path_ancestry fs p = get_path_ancestry fs' p)
      /\ (segments p <> [] ->
          exists front, get_path_ancestry fs p = front ++ [parent p])).
Proof.
  split; [|split].
  - intros fs' E. unfold get_path_ancestry. now rewrite E.
  - apply ancestry_length.
  - intros Hmiss.
    assert (Hnd : is_dir fs p = false) by (unfold is_dir; now rewrite Hmiss).
    assert (Hchain : get_path_ancestry fs p = rev (parents p))
      by (unfold get_path_ancestry; now rewrite Hnd).
    split; [exact Hnd|]. split; [exact Hchain|]. split; [|split].
    + intros Hin. destruct (In_nth_error _ _ Hin) as [i Hi].
      apply ancestry_nth in Hi. destruct Hi as [Hlt Hp].
      unfold chain_len in Hlt. rewrite Hnd in Hlt.
      assert (Hl : length (segments p) = i).
      { rewrite Hp at 1. apply prefix_segments_length. lia. }
      lia.
    + intros fs' Hfile. unfold get_path_ancestry, is_dir.
      now rewrite Hmiss, Hfile.
    + intros Hne. rewrite Hchain, reverse_parents_prefixes.
      destruct (length (segments p)) as [|n] eqn:Hn.
      * destruct (segments p); [congruence|discriminate].
      * exists (map (prefix p) (seq 0 n)).
        rewrite seq_S, map_app. simpl. f_equal. f_equal.
        rewrite parent_prefix, Hn. f_equal. lia.
Qed.

(** C9, as the specification states it, fails: [get_path_ancestry] raises
    when [os.stat] fails with an error that [Path.is_dir] does not ignore,
    here a name that is too long for a path that does not exist. *)
Lemma ancestry_raises_on_stat_error :
  Raising.get_path_ancestry os_name_too_long (posix ["x"; "y"])
  = inl ENAMETOOLONG
  /\ forall chain,
       Raising.get_path_ancestry os_name_too_long (posix ["x"; "y"])
       <> inr chain.
Proof. split; [reflexivity|discriminate]. Qed.

(** C9, amended. [get_path_ancestry] fails exactly when [os.stat] on the
    path fails with an error that [Path.is_dir] does not ignore, and then
    with that error. Its result depends on the filesystem through the answer
    of [os.stat] for the path itself alone. A path that [os.stat] reports as
    not existing is treated as not a directory: the call returns, the chain
    is the one of a file at the same place, it does not hold the path and it
    ends at the parent of the path. *)
Theorem ancestry_fails_only_on_stat_error
        (os_stat : Path -> stat_outcome) (p : Path) :
  (forall e, Raising.get_path_ancestry os_stat p = inl e
             <-> os_stat p = StatOSError e /\ ignore_error e = false)
  /\ (forall os_stat', os_stat' p = os_stat p ->
        Raising.get_path_ancestry os_stat' p
        = Raising.get_path_ancestry os_stat p)
  /\ (forall chain resolve_path,
        Raising.get_path_ancestry os_stat p = inr chain ->
        chain = get_path_ancestry (fs_view os_stat resolve_path) p)
  /\ (os_stat p = StatOSError ENOENT ->
      Raising.get_path_ancestry os_stat p = inr (rev (parents p))
      /\ ~ In p (rev (parents p))
      /\ (forall os_stat', os_stat' p = StatNotDir ->
            Raising.get_path_ancestry os_stat' p
            = Raising.get_path_ancestry os_stat p)
      /\ (segments p <> [] ->
          exists front, rev (parents p) = front ++ [parent p])).
Proof.
  split; [|split; [|split]].
  - intros e. unfold Raising.get_path_ancestry, Raising.is_dir.
    destruct (os_stat p) as [| |e0|] eqn:Hstat;
      try (split; [discriminate | intros [H _]; discriminate]).
    destruct (ignore_error e0) eqn:Hign.
    + split; [discriminate|]. intros [H He]. inversion H; subst. congruence.
    + split.
      * intros H; inversion H; subst. now split.
      * intros [H _]. inversion H; subst. reflexivity.
  - intros os_stat' E. unfold Raising.get_path_ancestry, Raising.is_dir.
    now rewrite E.
  - intros chain resolve_path.
    unfold Raising.get_path_ancestry, Raising.is_dir, get_path_ancestry,
      is_dir, fs_view. cbn [stat].
    destruct (os_stat p) as [| |e0|]; cbn [node_of];
      try (intros H; inversion H; reflexivity).
    destruct (ignore_error e0); intros H; inversion H; reflexivity.
  - intros Hstat.
    assert (Hmiss : stat (fs_view os_stat (fun q => q)) p = Missing)
      by (cbn [fs_view stat]; now rewrite Hstat).
    destruct (proj2 (proj2 (ancestry_of_missing
                              (fs_view os_stat (fun q => q)) p)) Hmiss)
      as (_ & Hchain & Hnotin & _ & Hend).
    rewrite Hchain in Hnotin, Hend.
    split; [|split; [exact Hnotin|split; [|exact Hend]]].
    + unfold Raising.get_path_ancestry, Raising.is_dir. now rewrite Hstat.
    + intros os_stat' Hfile.
      unfold Raising.get_path_ancestry, Raising.is_dir.
      now rewrite Hstat, Hfile.
Qed.

Lemma ancestry_fails_only_on_stat_error_witness :
  Raising.get_path_ancestry os_name_too_long (posix ["x"; "z"])
  = inr [posix []; posix ["x"]]
  /\ exists front,
       rev (parents (posix ["x"; "z"]))
       = front ++ [parent (posix ["x"; "z"])].
Proof.
  pose proof (proj2 (proj2 (proj2 (@ancestry_fails_only_on_stat_error
                                     os_name_too_long (posix ["x"; "z"]))))
                eq_refl) as H.
  split.
  - exact (proj1 H).
  - apply (proj2 (proj2 (proj2 H))). discriminate.
Defined.

Lemma common_root_root_aligned_witness :
  get_common_root fs_project [posix ["a"]; file_txt] = inr (posix ["a"]).
Proof.
  apply (proj2 (@common_root_root_aligned fs_project
                  [posix ["a"]; file_txt] (posix ["a"]))).
  split; [discriminate|]. exists 1.
  split; [repeat constructor|].
  split; [repeat constructor|].
  split.
  - intros [|[|j]] Hj; [exists (posix [])|exists (posix ["a"])|lia];
      repeat constructor.
  - intros j q Hj Hlen. inversion Hlen as [|? ? H1 _]; subst.
    simpl in H1. lia.
Defined.

(** ** Further properties of the common root *)

Lemma in_parents (p q : Path) :
  In q (parents p) <-> exists k, k < length (segments p) /\ q = prefix p k.
Proof.
  rewrite in_rev, reverse_parents_prefixes, in_map_iff.
  split.
  - intros (k & E & Hk). apply in_seq in Hk. exists k. split; [lia|now subst].
  - intros (k & Hk & E). exists k. split; [now subst|]. apply in_seq. lia.
Qed.

Lemma ancestor_or_self_prefix (p : Path) (k : nat) :
  ancestor_or_self (prefix p k) p.
Proof.
  destruct (Nat.lt_ge_cases k (length (segments p))) as [H|H].
  - right. apply in_parents. now exists k.
  - left. unfold prefix. rewrite firstn_all2 by exact H. now destruct p.
Qed.

Lemma ancestor_or_self_inv (q p : Path) :
  ancestor_or_self q p ->
  q = prefix p (length (segments q))
  /\ length (segments q) <= length (segments p).
Proof.
  intros [->|H].
  - split; [symmetry; apply prefix_full|lia].
  - apply in_parents in H. destruct H as (k & Hk & ->).
    rewrite prefix_segments_length by lia. split; [reflexivity|lia].
Qed.

Lemma in_ancestry (fs : FS) (p q : Path) :
  In q (get_path_ancestry fs p)
  <-> length (segments q) < chain_len fs p
      /\ q = prefix p (length (segments q)).
Proof.
  split.
  - intros H. destruct (In_nth_error _ _ H) as [i Hi].
    apply ancestry_nth in Hi. destruct Hi as [Hlt Hq].
    assert (E : length (segments q) = i).
    { rewrite Hq. apply prefix_segments_length.
      pose proof (chain_len_le fs p). lia. }
    rewrite E. now split.
  - intros [Hlt Hq]. apply nth_error_In with (n := length (segments q)).
    apply ancestry_nth. now split.
Qed.

Lemma last_shared_of_result (fs : FS) (paths : list Path) (r : Path) :
  get_common_root fs paths = inr r ->
  paths <> [] /\ last_shared (chains fs paths) (length (segments r)) r.
Proof.
  intros H. apply common_root_inr in H. destruct H as (Hne & i & Hi).
  split; [exact Hne|].
  assert (E : length (segments r) = i); [|now rewrite E].
  destruct Hi as [Hs _]. apply shared_at_chains in Hs.
  destruct paths as [|p paths]; [congruence|].
  inversion Hs as [|? ? [Hlt ->] _]; subst.
  apply prefix_segments_length.
  pose proof (chain_len_le fs (resolve fs p)). lia.
Qed.

(** X1. The path returned by [get_common_root] is an ancestor of, or equal
    to, every resolved input, and it is the deepest candidate: any path that
    occurs in the ancestor chain of every input is an ancestor of, or equal
    to, the result. *)
Theorem common_root_deepest_common_ancestor
        (fs : FS) (paths : list Path) (r : Path) :
  get_common_root fs paths = inr r ->
  Forall (fun p => ancestor_or_self r (resolve fs p)) paths
  /\ Forall (fun p => In r (get_path_ancestry fs (resolve fs p))) paths
  /\ forall q,
       Forall (fun p => In q (get_path_ancestry fs (resolve fs p))) paths ->
       ancestor_or_self q r
       /\ length (segments q) <= length (segments r).
Proof.
  intros H. apply last_shared_of_result in H.
  destruct H as (Hne & Hs & Hlast).
  pose proof (proj1 (shared_at_chains _ _ _ _) Hs) as Hs'.
  split; [|split].
  - revert Hs'. apply Forall_impl. intros p [_ ->].
    apply ancestor_or_self_prefix.
  - revert Hs'. apply Forall_impl. intros p [Hlt Hr].
    apply in_ancestry. now split.
  - intros q Hq.
    assert (Hsq : shared_at (chains fs paths) (length (segments q)) q).
    { apply shared_at_chains. revert Hq. apply Forall_impl.
      intros p Hp. now apply in_ancestry. }
    assert (Hle : length (segments q) <= length (segments r)).
    { destruct (Nat.le_gt_cases (length (segments q)) (length (segments r)))
        as [Hle|Hgt]; [exact Hle|].
      exfalso. exact (Hlast _ q Hgt Hsq). }
    split; [|exact Hle].
    destruct paths as [|p paths]; [congruence|].
    inversion Hs' as [|? ? [_ Hr] _]; subst.
    apply shared_at_chains in Hsq.
    inversion Hsq as [|? ? [_ Hq'] _]; subst.
    rewrite Hq', Hr, <- (prefix_prefix (resolve fs p) Hle).
    rewrite <- Hr. apply ancestor_or_self_prefix.
Qed.

Lemma common_root_deepest_common_ancestor_witness :
  Forall (fun p => ancestor_or_self (posix ["a"; "b"]) (resolve fs_project p))
         [file_txt; file2_txt].
Proof.
  apply (@common_root_deepest_common_ancestor
           fs_project [file_txt; file2_txt] (posix ["a"; "b"])).
  reflexivity.
Defined.

(** X2. A common root that is one of the resolved inputs is a directory:
    a file or a missing path given as input is never returned itself. *)
Theorem common_root_input_is_directory
        (fs : FS) (paths : list Path) (r p : Path) :
  get_common_root fs paths = inr r ->
  In p paths -> resolve fs p = r ->
  is_dir fs r = true /\ stat fs r = Dir.
Proof.
  intros H Hin Hp. apply last_shared_of_result in H.
  destruct H as (_ & Hs & _). apply shared_at_chains in Hs.
  rewrite Forall_forall in Hs. destruct (Hs p Hin) as [Hlt _].
  rewrite Hp in Hlt. unfold chain_len in Hlt.
  assert (Hd : is_dir fs r = true) by (destruct (is_dir fs r); [reflexivity|lia]).
  split; [exact Hd|]. unfold is_dir in Hd.
  destruct (stat fs r); [discriminate|discriminate|reflexivity].
Qed.

Lemma common_root_input_is_directory_witness :
  is_dir fs_project (posix ["a"]) = true
  /\ stat fs_project (posix ["a"]) = Dir.
Proof.
  apply (@common_root_input_is_directory
           fs_project [posix ["a"]; file_txt] (posix ["a"]) (posix ["a"])).
  - reflexivity.
  - left. reflexivity.
  - reflexivity.
Defined.

(** X3. When two of the inputs resolve below different anchors (two
    drives), no position can be shared and [get_common_root] raises its
    error, which carries the resolved inputs. *)
Theorem common_root_across_anchors
        (fs : FS) (paths : list Path) (p1 p2 : Path) :
  In p1 paths -> In p2 paths ->
  anchor (resolve fs p1) <> anchor (resolve fs p2) ->
  get_common_root fs paths = inl (NoCommonRoot (map (resolve fs) paths)).
Proof.
  intros H1 H2 Hneq. apply common_root_fails. right.
  intros i r Hs. apply shared_at_chains in Hs.
  rewrite Forall_forall in Hs.
  destruct (Hs p1 H1) as [_ E1], (Hs p2 H2) as [_ E2].
  apply Hneq. rewrite E1 in E2.
  exact (f_equal anchor E2).
Qed.

Lemma common_root_across_anchors_witness :
  get_common_root fs_drives
    [mkPath (drive "C") ["x"; "y"]; mkPath (drive "D") ["x"; "y"]]
  = inl (NoCommonRoot
           (map (resolve fs_drives)
                [mkPath (drive "C") ["x"; "y"]; mkPath (drive "D") ["x"; "y"]])).
Proof.
  apply (@common_root_across_anchors fs_drives _
           (mkPath (drive "C") ["x"; "y"]) (mkPath (drive "D") ["x"; "y"])).
  - left. reflexivity.
  - right. left. reflexivity.
  - discriminate.
Defined.

(** X4. Dropping inputs can only deepen the result: when [get_common_root]
    succeeds on a collection, it succeeds on every non-empty collection
    drawn from it, and the result for the larger collection is an ancestor
    of, or equal to, the result for the smaller one. *)
Theorem common_root_of_fewer_paths
        (fs : FS) (paths paths' : list Path) (r : Path) :
  get_common_root fs paths = inr r ->
  paths' <> [] -> incl paths' paths ->
  exists r', get_common_root fs paths' = inr r' /\ ancestor_or_self r r'.
Proof.
  intros H Hne Hincl. apply last_shared_of_result in H.
  destruct H as (_ & Hs & _).
  assert (Hs' : shared_at (chains fs paths') (length (segments r)) r).
  { apply shared_at_chains. apply shared_at_chains in Hs.
    rewrite Forall_forall in *. intros p Hp. apply Hs, Hincl, Hp. }
  destruct (common_root_total fs paths') as [E|[r' E]].
  - exfalso. apply common_root_fails in E.
    destruct E as [E|E]; [congruence|]. exact (E _ _ Hs').
  - exists r'. split; [exact E|].
    apply last_shared_of_result in E. destruct E as (_ & Hr' & Hlast).
    assert (Hle : length (segments r) <= length (segments r')).
    { destruct (Nat.le_gt_cases (length (segments r)) (length (segments r')))
        as [Hle|Hgt]; [exact Hle|].
      exfalso. exact (Hlast _ r Hgt Hs'). }
    apply shared_at_chains in Hs', Hr'.
    destruct paths' as [|p ps]; [congruence|].
    inversion Hs' as [|? ? [_ Er] _]; inversion Hr' as [|? ? [_ Er'] _]; subst.
    rewrite Er, <- (prefix_prefix (resolve fs p) Hle), <- Er'.
    apply ancestor_or_self_prefix.
Qed.

Lemma common_root_of_fewer_paths_witness :
  exists r', get_common_root fs_project [file_txt] = inr r'
             /\ ancestor_or_self (posix ["a"; "b"]) r'.
Proof.
  apply (@common_root_of_fewer_paths fs_project [file_txt; file2_txt]).
  - reflexivity.
  - discriminate.
  - intros p [<-|[]]. left. reflexivity.
Defined.

(** X5. A directory given together with paths that all lie inside it (or
    equal it) is the common root of the collection. *)
Theorem common_root_of_directory_and_contents
        (fs : FS) (d : Path) (paths : list Path) :
  is_dir fs (resolve fs d) = true ->
  Forall (fun p => ancestor_or_self (resolve fs d) (resolve fs p)) paths ->
  get_common_root fs (d :: paths) = inr (resolve fs d).
Proof.
  intros Hdir Hall. set (D := resolve fs d) in *.
  assert (Hlen : chain_len fs D = S (length (segments D))).
  { unfold chain_len. rewrite Hdir. lia. }
  apply common_root_inr. split; [discriminate|].
  exists (length (segments D)). split.
  - apply shared_at_chains. constructor.
    + fold D. split; [lia|symmetry; apply prefix_full].
    + revert Hall. apply Forall_impl. intros p Hp.
      destruct Hp as [<-|Hp].
      * split; [lia|symmetry; apply prefix_full].
      * apply in_parents in Hp. destruct Hp as (k & Hk & E).
        assert (Ek : length (segments D) = k).
        { rewrite E. apply prefix_segments_length. lia. }
        rewrite Ek. split; [unfold chain_len; lia|exact E].
  - intros j q Hj Hs. apply shared_at_chains in Hs.
    inversion Hs as [|? ? [Hlt _] _]; subst. fold D in Hlt. lia.
Qed.

Lemma common_root_of_directory_and_contents_witness :
  get_common_root fs_project [posix ["a"; "b"]; file_txt; file2_txt]
  = inr (posix ["a"; "b"]).
Proof.
  apply (@common_root_of_directory_and_contents
           fs_project (posix ["a"; "b"]) [file_txt; file2_txt]).
  - reflexivity.
  - repeat constructor; right; simpl; tauto.
Defined.

(** X6. A path that is not a directory, lying in a directory, has the
    ancestor chain of that directory. *)
Theorem ancestry_of_file_is_ancestry_of_parent (fs : FS) (p : Path) :
  segments p <> [] ->
  is_dir fs p = false ->
  is_dir fs (parent p) = true ->
  get_path_ancestry fs p = get_path_ancestry fs (parent p).
Proof.
  intros Hne Hfile Hdir.
  rewrite !ancestry_prefixes. unfold chain_len. rewrite Hfile, Hdir.
  assert (Hlen : length (segments (parent p)) + 1 = length (segments p) + 0).
  { rewrite parent_prefix, prefix_segments_length by lia.
    destruct (segments p); [congruence|simpl; lia]. }
  rewrite Hlen. apply map_ext_in. intros k Hk. apply in_seq in Hk.
  rewrite parent_prefix. symmetry. apply prefix_prefix. lia.
Qed.

Lemma ancestry_of_file_is_ancestry_of_parent_witness :
  get_path_ancestry fs_project file_txt
  = get_path_ancestry fs_project (parent file_txt).
Proof.
  apply (@ancestry_of_file_is_ancestry_of_parent fs_project file_txt).
  - discriminate.
  - reflexivity.
  - reflexivity.
Defined.

(** ** Strings *)

Local Open Scope string_scope.

Lemma append_nil_r (s : string) : s ++ "" = s.
Proof. induction s as [|c s IH]; simpl; [reflexivity|now rewrite IH]. Qed.

Lemma append_assoc (a b c : string) : (a ++ b) ++ c = a ++ (b ++ c).
Proof. induction a as [|x a IH]; simpl; [reflexivity|now rewrite IH]. Qed.

Lemma length_append (a b : string) :
  String.length (a ++ b) = String.length a + String.length b.
Proof. induction a as [|x a IH]; simpl; [reflexivity|now rewrite IH]. Qed.

Lemma get_append_at_length (pre post : string) (c : ascii) :
  get (String.length pre) (pre ++ String c post) = Some c.
Proof. induction pre as [|x pre IH]; simpl; [reflexivity|exact IH]. Qed.

Lemma string_last (s : string) :
  s <> "" -> exists s' c, s = s' ++ String c "".
Proof.
  induction s as [|x s IH]; [congruence|]. intros _.
  destruct s as [|y s].
  - now exists "", x.
  - destruct IH as (s' & c & E); [discriminate|].
    exists (String x s'), c. simpl. now rewrite <- E.
Qed.

(** ** Where the first line feed is *)

Lemma index_lf_cons (c : ascii) (s : string) :
  index 0 lf (String c s)
  = if Ascii.eqb c LF then Some 0 else option_map S (index 0 lf s).
Proof.
  unfold lf. cbn [index String.prefix].
  destruct (ascii_dec LF c) as [<-|Hne].
  - rewrite Ascii.eqb_refl. now destruct s.
  - destruct (Ascii.eqb_spec c LF) as [->|_]; [congruence|].
    now destruct (index 0 (String LF "") s).
Qed.

Lemma index_lf_nil : index 0 lf "" = None.
Proof. reflexivity. Qed.

Lemma index_lf_split (s : string) (n : nat) :
  index 0 lf s = Some n ->
  exists pre post,
    s = pre ++ String LF post /\ String.length pre = n
    /\ index 0 lf pre = None.
Proof.
  revert n; induction s as [|c s IH]; intros n H.
  - discriminate.
  - rewrite index_lf_cons in H.
    destruct (Ascii.eqb_spec c LF) as [->|Hne].
    + inversion H; subst. now exists "", s.
    + destruct (index 0 lf s) as [m|] eqn:Hm; [|discriminate].
      inversion H; subst.
      destruct (IH m eq_refl) as (pre & post & -> & Hlen & Hpre).
      exists (String c pre), post. repeat split.
      * simpl. now rewrite Hlen.
      * rewrite index_lf_cons, Hpre.
        destruct (Ascii.eqb_spec c LF); [congruence|reflexivity].
Qed.

Lemma index_lf_append (pre post : string) :
  index 0 lf pre = None ->
  index 0 lf (pre ++ String LF post) = Some (String.length pre).
Proof.
  induction pre as [|c pre IH]; intros H.
  - simpl append. rewrite index_lf_cons. reflexivity.
  - simpl append. rewrite index_lf_cons in *.
    destruct (Ascii.eqb c LF); [discriminate|].
    destruct (index 0 lf pre); [discriminate|].
    now rewrite IH.
Qed.

Lemma index_lf_append_char (pre : string) (c : ascii) :
  index 0 lf pre = None -> c <> LF ->
  index 0 lf (pre ++ String c "") = None.
Proof.
  induction pre as [|x pre IH]; intros H Hc.
  - simpl append. rewrite index_lf_cons.
    destruct (Ascii.eqb_spec c LF); [congruence|reflexivity].
  - simpl append. rewrite index_lf_cons in *.
    destruct (Ascii.eqb x LF); [discriminate|].
    destruct (index 0 lf pre); [discriminate|].
    now rewrite IH.
Qed.

Lemma index_lf_append_None (pre post : string) :
  index 0 lf (pre ++ post) = None -> index 0 lf pre = None.
Proof.
  induction pre as [|x pre IH]; intros H; [reflexivity|].
  simpl append in H. rewrite index_lf_cons in *.
  destruct (Ascii.eqb x LF); [discriminate|].
  destruct (index 0 lf (pre ++ post)); [discriminate|].
  now rewrite IH.
Qed.

Lemma str_find_None (s : string) :
  str_find s lf = (-1)%Z <-> index 0 lf s = None.
Proof.
  unfold str_find. destruct (index 0 lf s); split; try reflexivity;
    try discriminate; lia.
Qed.

(** [detect_newline] in terms of the position of the first line feed. *)
Lemma detect_newline_eq (s : string) :
  detect_newline s
  = match index 0 lf s with
    | Some (S m) =>
        match get m s with
        | Some c => if Ascii.eqb c CR then Some crlf else Some lf
        | None => None
        end
    | _ => Some lf
    end.
Proof.
  unfold detect_newline, str_find, str_getitem.
  destruct (index 0 lf s) as [[|m]|]; try reflexivity.
  assert (H1 : (0 <? Z.of_nat (S m))%Z = true) by (apply Z.ltb_lt; lia).
  assert (H2 : (Z.of_nat (S m) - 1 <? 0)%Z = false) by (apply Z.ltb_ge; lia).
  cbv zeta. rewrite H1, H2. cbv iota. rewrite H2.
  replace (Z.to_nat (Z.of_nat (S m) - 1)) with m by lia.
  reflexivity.
Qed.

Lemma index_lf_crlf (pre post : string) :
  index 0 lf pre = None ->
  index 0 lf (pre ++ crlf ++ post) = Some (S (String.length pre)).
Proof.
  intros H.
  assert (Hc : index 0 lf (pre ++ String CR "") = None)
    by (apply index_lf_append_char; [exact H|discriminate]).
  pose proof (@index_lf_append _ post Hc) as Hidx.
  rewrite append_assoc, length_append in Hidx.
  cbn [append String.length] in Hidx. unfold crlf. cbn [append].
  rewrite Hidx. f_equal. lia.
Qed.

(** X7. [detect_newline] never raises and answers ["\r\n"] or ["\n"]; the
    answer is ["\r\n"] exactly when the first line feed of the text comes
    right after a carriage return. A text without a line feed, and a text
    that begins with one, give ["\n"]. *)
Theorem detect_newline_crlf_iff (s : string) :
  (detect_newline s = Some crlf \/ detect_newline s = Some lf)
  /\ (detect_newline s = Some crlf
      <-> exists pre post,
            s = pre ++ crlf ++ post /\ str_find pre lf = (-1)%Z).
Proof.
  rewrite detect_newline_eq.
  destruct (index 0 lf s) as [n|] eqn:Hn.
  - destruct (index_lf_split _ Hn) as (pre & post & Hs & Hlen & Hpre).
    destruct n as [|m].
    + split; [now right|]. split; [discriminate|].
      intros (pre' & post' & Hs' & Hpre'). exfalso.
      apply str_find_None in Hpre'.
      pose proof (@index_lf_crlf _ post' Hpre') as Hidx.
      rewrite <- Hs', Hn in Hidx. discriminate.
    + destruct (@string_last pre) as (pre' & c & Epre).
      { intros ->. discriminate. }
      assert (Hget : get m s = Some c).
      { rewrite Hs, Epre, append_assoc. simpl append at 2.
        assert (Em : m = String.length pre').
        { rewrite Epre, length_append in Hlen. simpl in Hlen. lia. }
        rewrite Em. apply get_append_at_length. }
      rewrite Hget.
      destruct (Ascii.eqb_spec c CR) as [->|Hc].
      * split; [now left|]. split; [|reflexivity]. intros _.
        exists pre', post. split.
        -- rewrite Hs, Epre, append_assoc. reflexivity.
        -- apply str_find_None. rewrite Epre in Hpre.
           exact (index_lf_append_None _ _ Hpre).
      * split; [now right|]. split; [discriminate|].
        intros (pre2 & post2 & Hs2 & Hpre2). exfalso.
        apply str_find_None in Hpre2.
        pose proof (@index_lf_crlf _ post2 Hpre2) as Hidx.
        rewrite <- Hs2, Hn in Hidx. inversion Hidx as [Em].
        assert (E2 : get m s = Some CR).
        { rewrite Hs2, Em. apply get_append_at_length. }
        congruence.
  - split; [now right|]. split; [discriminate|].
    intros (pre' & post' & Hs' & Hpre'). exfalso.
    apply str_find_None in Hpre'.
    pose proof (@index_lf_crlf _ post' Hpre') as Hidx.
    rewrite <- Hs', Hn in Hidx. discriminate.
Qed.

Example detect_newline_examples :
  detect_newline ("a" ++ crlf ++ "b" ++ lf) = Some crlf
  /\ detect_newline ("a" ++ lf ++ "b" ++ crlf) = Some lf
  /\ detect_newline (lf ++ "b" ++ String CR "") = Some lf
  /\ detect_newline "no newline" = Some lf
  /\ detect_newline "" = Some lf.
Proof. repeat split. Qed.

Example splitlines_examples :
  splitlines "" = []
  /\ splitlines "a" = ["a"]
  /\ splitlines ("a" ++ lf) = ["a"]
  /\ splitlines lf = [""]
  /\ splitlines ("a" ++ lf ++ lf ++ "b") = ["a"; ""; "b"]
  /\ splitlines ("a" ++ crlf ++ "b" ++ String CR "" ++ "c") = ["a"; "b"; "c"]
  /\ joinlines ["a"; "b"] lf = "a" ++ lf ++ "b" ++ lf
  /\ joinlines [] lf = "".
Proof. repeat split. Qed.

(** ** [joinlines] *)

Lemma joinlines_cons (line : string) (lines : list string) (nl : string) :
  joinlines (line :: lines) nl = line ++ nl ++ joinlines lines nl.
Proof.
  unfold joinlines. destruct lines as [|l lines]; simpl.
  - now rewrite append_nil_r.
  - now rewrite append_assoc.
Qed.

(** X8. Joining a concatenation of two lists of lines gives the
    concatenation of the two joined texts, and the joined text is as long
    as its lines plus one newline for each. *)
Theorem joinlines_app (lines1 lines2 : list string) (nl : string) :
  joinlines (lines1 ++ lines2)%list nl
  = joinlines lines1 nl ++ joinlines lines2 nl
  /\ String.length (joinlines lines1 nl)
     = list_sum (map String.length lines1)
       + List.length lines1 * String.length nl.
Proof.
  split.
  - induction lines1 as [|l lines1 IH]; [reflexivity|].
    simpl app. rewrite !joinlines_cons, IH, !append_assoc. reflexivity.
  - induction lines1 as [|l lines1 IH]; [reflexivity|].
    rewrite joinlines_cons, !length_append, IH. simpl. lia.
Qed.

(** X9. The newline used by [joinlines] is the one [detect_newline] finds
    in the joined text: for ["\r\n"] when the first line holds no line
    feed, and for ["\n"] when moreover the first line does not end with a
    carriage return. *)
Theorem detect_newline_of_joinlines
        (line : string) (lines : list string) :
  str_find line lf = (-1)%Z ->
  detect_newline (joinlines (line :: lines) crlf) = Some crlf
  /\ ((forall l, line <> l ++ String CR "") ->
      detect_newline (joinlines (line :: lines) lf) = Some lf).
Proof.
  intros Hline. split.
  - apply detect_newline_crlf_iff.
    exists line, (joinlines lines crlf). split; [|exact Hline].
    apply joinlines_cons.
  - intros Hcr.
    destruct (proj1 (detect_newline_crlf_iff (joinlines (line :: lines) lf)))
      as [H|H]; [exfalso|exact H].
    apply detect_newline_crlf_iff in H.
    destruct H as (pre & post & E & Hpre).
    rewrite joinlines_cons in E.
    apply str_find_None in Hline, Hpre.
    pose proof (@index_lf_append _ (joinlines lines lf) Hline) as I1.
    pose proof (@index_lf_crlf _ post Hpre) as I2.
    unfold lf in E at 1. cbn [append] in E. rewrite E, I2 in I1.
    inversion I1 as [Hlen].
    destruct (@string_last line) as (l & c & El).
    { intros ->. discriminate. }
    assert (G1 : get (String.length pre) (joinlines (line :: lines) lf)
                 = Some c).
    { rewrite joinlines_cons, El, append_assoc. cbn [append].
      replace (String.length pre) with (String.length l).
      - apply get_append_at_length.
      - rewrite El, length_append in Hlen. simpl in Hlen. lia. }
    assert (G2 : get (String.length pre) (joinlines (line :: lines) lf)
                 = Some CR).
    { rewrite joinlines_cons. unfold lf at 1. cbn [append]. rewrite E.
      apply get_append_at_length. }
    apply (Hcr l). congruence.
Qed.

Lemma detect_newline_of_joinlines_witness :
  detect_newline (joinlines ["first"; "second"] crlf) = Some crlf
  /\ detect_newline (joinlines ["first"; "second"] lf) = Some lf.
Proof.
  destruct (@detect_newline_of_joinlines "first" ["second"] eq_refl)
    as [H1 H2].
  split; [exact H1|]. apply H2.
  intros l E.
  assert (H : get (String.length l) "first" = Some CR)
    by (rewrite E; apply get_append_at_length).
  assert (Hl : String.length l = 4).
  { apply (f_equal String.length) in E. rewrite length_append in E.
    simpl in E. lia. }
  rewrite Hl in H. discriminate.
Defined.

(** ** [joinlines] and [str.splitlines] *)

Lemma splitlines_from_line (line : option string) (l rest : string)
      (c : ascii) :
  has_linebreak l = false -> is_linebreak c = true ->
  splitlines_from line (l ++ String c rest)
  = (current_line line ++ l)
      :: match rest with
         | String c' rest' =>
             if Ascii.eqb c CR && Ascii.eqb c' LF
             then splitlines_from None rest'
             else splitlines_from None rest
         | EmptyString => splitlines_from None rest
         end.
Proof.
  intros Hl Hc. revert line Hl. induction l as [|x l IH]; intros line Hl.
  - cbn [append splitlines_from]. rewrite Hc, append_nil_r.
    now destruct line.
  - simpl in Hl. apply orb_false_iff in Hl. destruct Hl as [Hx Hl].
    cbn [append splitlines_from]. rewrite Hx.
    rewrite (IH _ Hl). cbn [current_line].
    rewrite append_assoc. reflexivity.
Qed.

(** X10. Splitting what [joinlines] built gives the lines back, with
    ["\n"] as with ["\r\n"], provided no line holds a line boundary. *)
Theorem splitlines_of_joinlines (lines : list string) :
  Forall (fun line => has_linebreak line = false) lines ->
  splitlines (joinlines lines lf) = lines
  /\ splitlines (joinlines lines crlf) = lines.
Proof.
  unfold splitlines. induction 1 as [|l lines Hl _ [IH1 IH2]].
  - split; reflexivity.
  - rewrite !joinlines_cons. split.
    + unfold lf at 1. cbn [append].
      rewrite (@splitlines_from_line None l (joinlines lines lf) LF
                 Hl eq_refl).
      cbn [current_line append]. f_equal.
      destruct (joinlines lines lf) eqn:E; [exact IH1|].
      cbn [Ascii.eqb LF CR Bool.eqb andb]. exact IH1.
    + unfold crlf at 1. cbn [append].
      rewrite (@splitlines_from_line None l (String LF (joinlines lines crlf))
                 CR Hl eq_refl).
      cbn [current_line append]. f_equal. exact IH2.
Qed.

Lemma splitlines_of_joinlines_witness :
  splitlines (joinlines ["first"; ""; "third"] lf) = ["first"; ""; "third"].
Proof.
  apply (@splitlines_of_joinlines ["first"; ""; "third"]).
  repeat constructor.
Defined.

Lemma ends_with_lf_cons (c : ascii) (rest s' : string) :
  String c rest = s' ++ lf ->
  (c = LF /\ rest = "") \/ (rest <> "" /\ exists r', rest = r' ++ lf).
Proof.
  destruct s' as [|x s']; cbn [append lf]; intros E; inversion E; subst.
  - now left.
  - right. split; [|now exists s'].
    destruct s'; discriminate.
Qed.

Lemma joinlines_splitlines_from (s : string) :
  only_lf_breaks s ->
  forall line s', s = s' ++ lf ->
    joinlines (splitlines_from line s) lf = current_line line ++ s.
Proof.
  induction s as [|c rest IH]; intros Hs line s' E.
  - destruct s'; discriminate.
  - destruct Hs as [Hc Hrest].
    destruct (ends_with_lf_cons _ E) as [[-> ->]|[Hne [r' Er']]].
    + cbn. now destruct line.
    + cbn [splitlines_from].
      destruct (is_linebreak c) eqn:Hb.
      * rewrite (Hc eq_refl) in *.
        assert (Ht : match rest with
                     | String c' rest' =>
                         if Ascii.eqb LF CR && Ascii.eqb c' LF
                         then splitlines_from None rest'
                         else splitlines_from None rest
                     | EmptyString => splitlines_from None rest
                     end = splitlines_from None rest)
          by (destruct rest; reflexivity).
        rewrite Ht, joinlines_cons, (IH Hrest None r' Er').
        cbn [current_line append]. now destruct line.
      * rewrite (IH Hrest _ r' Er'). cbn [current_line].
        rewrite append_assoc. now destruct line.
Qed.

(** X11. [joinlines] undoes [str.splitlines]: a text whose only line
    boundaries are line feeds, empty or ending with a line feed, is what
    [joinlines] builds from its lines. *)
Theorem joinlines_of_splitlines (s : string) :
  only_lf_breaks s ->
  s = "" \/ (exists s', s = s' ++ lf) ->
  joinlines (splitlines s) lf = s.
Proof.
  intros Hs [->|[s' E]]; [reflexivity|].
  unfold splitlines. now rewrite (joinlines_splitlines_from Hs None s' E).
Qed.

Lemma joinlines_of_splitlines_witness :
  joinlines (splitlines ("a" ++ lf ++ lf ++ "b" ++ lf)) lf
  = "a" ++ lf ++ lf ++ "b" ++ lf.
Proof.
  apply (@joinlines_of_splitlines ("a" ++ lf ++ lf ++ "b" ++ lf)).
  - cbn. repeat split; try discriminate; reflexivity.
  - right. exists ("a" ++ lf ++ lf ++ "b"). reflexivity.
Defined.

Local Open Scope list_scope.

(** ** [glob_any] *)

(** X12. [glob_any] is false without patterns; and when the object that
    [Path.glob] returns counts as true for every pattern, as an iterator
    object does in Python, [glob_any] is true as soon as there is a pattern,
    whatever the path matches. *)
Theorem glob_any_nonempty (G : Type) (glob : Path -> string -> G)
        (truth : G -> bool) (path : Path) (patterns : list string) :
  (forall pattern, In pattern patterns -> truth (glob path pattern) = true) ->
  glob_any glob truth path [] = false
  /\ (glob_any glob truth path patterns = true <-> patterns <> []).
Proof.
  intros Htruth. split; [reflexivity|].
  unfold glob_any. rewrite existsb_exists. split.
  - intros (pattern & Hin & _) ->. exact Hin.
  - destruct patterns as [|pattern patterns]; [congruence|]. intros _.
    exists pattern. split; [now left|]. apply Htruth. now left.
Qed.

Lemma glob_any_nonempty_witness :
  glob_any (fun _ pattern => pattern) (fun _ => true) (posix ["a"])
           ["*.py"%string] = true.
Proof.
  apply (@glob_any_nonempty string (fun _ pattern => pattern) (fun _ => true)
           (posix ["a"]) ["*.py"%string]).
  - reflexivity.
  - discriminate.
Defined.

(** ** [debug_dump] *)

Example debug_dump_example :
  debug_dump 10 [(3%Z, ["old"%string; "gone"%string], ["new"%string])] [4%Z]
  = [str_repeat 80 "-";
     " -   3 old"%string; "*-   4 gone"%string; " +     new"%string;
     str_repeat 80 "-"].
Proof. reflexivity. Qed.

Lemma length_enumerate (A : Type) (l : list A) :
  length (enumerate l) = length l.
Proof.
  unfold enumerate.
  rewrite length_combine, length_map, length_seq. apply Nat.min_id.
Qed.

Lemma length_dump_chunk (edited : list Z) (offset : Z)
      (old_lines new_lines : list string) :
  length (dump_chunk edited (offset, old_lines, new_lines))
  = 1 + length old_lines + length new_lines.
Proof.
  unfold dump_chunk. cbn [length].
  rewrite length_app, !length_map, length_enumerate. lia.
Qed.

(** X13. Above the DEBUG level [debug_dump] prints nothing. Otherwise it
    prints one separator per chunk, one line per old line and per new line
    of each chunk, and a closing separator. *)
Theorem debug_dump_line_count (effective_level : Z)
        (black_chunks : list DiffChunk) (edited_linenums : list Z) :
  ((effective_level > DEBUG)%Z ->
   debug_dump effective_level black_chunks edited_linenums = [])
  /\ ((effective_level <= DEBUG)%Z ->
      length (debug_dump effective_level black_chunks edited_linenums)
      = list_sum (map (fun '(_, old_lines, new_lines) =>
                         1 + length old_lines + length new_lines)
                      black_chunks) + 1
      /\ last (debug_dump effective_level black_chunks edited_linenums)
              ""%string
         = str_repeat 80 "-").
Proof.
  unfold debug_dump. split; intros Hlevel.
  - assert (E : (effective_level >? DEBUG)%Z = true)
      by (apply Z.gtb_lt; lia).
    now rewrite E.
  - assert (E : (effective_level >? DEBUG)%Z = false).
    { rewrite Z.gtb_ltb. apply Z.ltb_ge. lia. }
    rewrite E. split; [|apply last_last].
    rewrite length_app. simpl length. f_equal.
    induction black_chunks as [|[[offset old_lines] new_lines] chunks IH];
      [reflexivity|].
    cbn [flat_map map list_sum fold_right].
    rewrite length_app, length_dump_chunk, IH. reflexivity.
Qed.

Lemma debug_dump_line_count_witness :
  debug_dump 20 [(3%Z, ["old"%string], ["new"%string])] [3%Z] = []
  /\ length (debug_dump 10 [(3%Z, ["old"%string], ["new"%string])] [3%Z])
     = 4.
Proof.
  split.
  - apply (proj1 (@debug_dump_line_count 20
                    [(3%Z, ["old"%string], ["new"%string])] [3%Z])).
    reflexivity.
  - apply (proj2 (@debug_dump_line_count 10
                    [(3%Z, ["old"%string], ["new"%string])] [3%Z])).
    discriminate.
Defined.

Lemma format_width4_length (n : Z) :
  (0 <= n < 10000)%Z -> String.length (format_width4 n) = 4.
Proof.
  intros Hn.
  assert (Hall : forallb (fun k => Nat.eqb (String.length
                                              (format_width4 (Z.of_nat k))) 4)
                         (seq 0 (100 * 100)) = true)
    by (vm_compute; reflexivity).
  rewrite forallb_forall in Hall.
  specialize (Hall (Z.to_nat n)).
  rewrite Z2Nat.id in Hall by lia.
  apply Nat.eqb_eq, Hall, in_seq. lia.
Qed.

Lemma Forall2_map_combine (A B C : Type) (f : A * B -> C)
      (P : C -> B -> Prop) (Q : A -> Prop) (idxs : list A) (l : list B) :
  length idxs = length l -> Forall Q idxs ->
  (forall d line, Q d -> P (f (d, line)) line) ->
  Forall2 P (map f (combine idxs l)) l.
Proof.
  intros Hlen HQ Hf. revert l Hlen.
  induction HQ as [|d idxs Hd _ IH]; intros [|line l] Hlen;
    try discriminate; simpl; constructor.
  - now apply Hf.
  - apply IH. now inversion Hlen.
Qed.

(** X14. In the dump of a chunk whose line numbers lie between 0 and 9999,
    every row after the separator is its old or new line behind a prefix of
    exactly 7 characters, so old and new lines start at the same column. *)
Theorem debug_dump_columns (edited_linenums : list Z) (offset : Z)
        (old_lines new_lines : list string) :
  (0 <= offset)%Z ->
  (offset + Z.of_nat (length old_lines) <= 10000)%Z ->
  exists rows,
    dump_chunk edited_linenums (offset, old_lines, new_lines)
    = str_repeat 80 "-" :: rows
    /\ Forall2 (fun row line =>
                  exists pre, row = (pre ++ line)%string
                              /\ String.length pre = 7)
               rows (old_lines ++ new_lines).
Proof.
  intros Hoff Hmax. eexists. split; [reflexivity|].
  apply Forall2_app.
  - unfold enumerate.
    apply Forall2_map_combine
      with (Q := fun d => (0 <= offset + d < 10000)%Z).
    + now rewrite length_map, length_seq.
    + apply Forall_forall. intros d Hd. apply in_map_iff in Hd.
      destruct Hd as (k & <- & Hk). apply in_seq in Hk. lia.
    + intros d line Hd.
      exists ((if existsb (Z.eqb (offset + d)) edited_linenums
               then "*" else " ")
              ++ "-" ++ format_width4 (offset + d) ++ " ")%string.
      split.
      * rewrite !append_assoc. reflexivity.
      * rewrite !length_append, (format_width4_length Hd).
        now destruct (existsb _ edited_linenums).
  - induction new_lines as [|line new_lines IH]; simpl; constructor;
      [|exact IH].
    now exists " +     "%string.
Qed.

Lemma debug_dump_columns_witness :
  exists rows,
    dump_chunk [4%Z] (3%Z, ["old"%string; "gone"%string], ["new"%string])
    = str_repeat 80 "-" :: rows
    /\ Forall2 (fun row line =>
                  exists pre, row = (pre ++ line)%string
                              /\ String.length pre = 7)
               rows (["old"%string; "gone"%string] ++ ["new"%string]).
Proof.
  apply (@debug_dump_columns [4%Z] 3%Z ["old"%string; "gone"%string]
           ["new"%string]).
  - discriminate.
  - discriminate.
Defined.

(** ** [fix_py37_win_tempdir_permissions] *)

Example fix_permissions_example :
  fix_py37_win_tempdir_permissions "win32" (3, 7) false (posix ["tmp"]) tmp_tree
  = [Chmod (posix ["tmp"; "sub"]) 448;
     Chmod (posix ["tmp"; "a.txt"]) 448;
     Chmod (posix ["tmp"; "sub"; "b.txt"]) 448]
  /\ fix_py37_win_tempdir_permissions "linux" (3, 7) true (posix ["tmp"])
       tmp_tree = []
  /\ fix_py37_win_tempdir_permissions "win32" (3, 8) false (posix ["tmp"])
       tmp_tree = [].
Proof. repeat split. Qed.

Lemma tree_induction (P : tree -> Prop) :
  P TFile ->
  (forall entries, Forall (fun e => P (snd e)) entries -> P (TDir entries)) ->
  forall t, P t.
Proof.
  intros Hfile Hdir. fix IH 1. intros [|entries]; [exact Hfile|].
  apply Hdir. induction entries as [|e entries IHe]; constructor.
  - apply IH.
  - exact IHe.
Qed.

Lemma join_extend (top : Path) (name : string) (rel : list string) :
  extend (join top name) rel = extend top (name :: rel).
Proof. unfold extend, join; simpl. now rewrite <- app_assoc. Qed.

Lemma calls_touched (has_chflags : bool)
      (rows : list (Path * list string * list string)) :
  flat_map (fun '(root, dirs, files) =>
              flat_map (fun name =>
                          let path := join root name in
                          (if has_chflags then [Chflags path 0] else [])
                          ++ [Chmod path mode_0o700])
                       (dirs ++ files))
           rows
  = flat_map (calls_on has_chflags) (touched rows).
Proof.
  unfold touched. induction rows as [|[[top dirs] files] rows IH];
    [reflexivity|].
  cbn [flat_map]. rewrite IH. generalize (dirs ++ files). intros names.
  rewrite flat_map_app. f_equal.
  induction names as [|name names IHn]; [reflexivity|].
  cbn [flat_map map]. now rewrite IHn.
Qed.

Lemma in_touched_flat_map (A : Type)
      (g : A -> list (Path * list string * list string)) (l : list A)
      (p : Path) :
  In p (touched (flat_map g l)) <-> exists e, In e l /\ In p (touched (g e)).
Proof.
  unfold touched. rewrite in_flat_map. split.
  - intros (row & Hrow & Hp). apply in_flat_map in Hrow.
    destruct Hrow as (e & He & Hrow). exists e. split; [exact He|].
    apply in_flat_map. now exists row.
  - intros (e & He & Hp). apply in_flat_map in Hp.
    destruct Hp as (row & Hrow & Hp). exists row. split; [|exact Hp].
    apply in_flat_map. now exists e.
Qed.

Lemma in_walk_names (entries : list (string * tree)) (name : string) :
  In name (map fst (filter (fun e => is_tdir (snd e)) entries)
           ++ map fst (filter (fun e => negb (is_tdir (snd e))) entries))
  <-> exists sub, In (name, sub) entries.
Proof.
  rewrite in_app_iff, !in_map_iff. split.
  - intros [([n sub] & E & H)|([n sub] & E & H)];
      apply filter_In in H; simpl in E; subst; exists sub; tauto.
  - intros (sub & H). destruct (is_tdir sub) eqn:Hd.
    + left. exists (name, sub). split; [reflexivity|].
      apply filter_In. now split.
    + right. exists (name, sub). split; [reflexivity|].
      apply filter_In. simpl. now rewrite Hd.
Qed.

Lemma touched_walk (t : tree) :
  forall top p,
    In p (touched (walk top t))
    <-> exists rel, entry_at t rel /\ p = extend top rel.
Proof.
  induction t as [|entries IH] using tree_induction; intros top p.
  - simpl. split; [tauto|]. intros (rel & H & _). inversion H.
  - cbn [walk].
    change (touched (?row :: ?rows)) with (touched ([row] ++ rows)).
    unfold touched at 1. rewrite flat_map_app, in_app_iff.
    fold (touched (flat_map
                     (fun e => if is_tdir (snd e)
                               then walk (join top (fst e)) (snd e) else [])
                     entries)).
    rewrite in_touched_flat_map. cbn [flat_map]. rewrite app_nil_r.
    rewrite in_map_iff. rewrite Forall_forall in IH. split.
    + intros [(name & <- & Hname)|([name sub] & He & Hp)].
      * apply in_walk_names in Hname. destruct Hname as [sub Hsub].
        exists [name]. split; [econstructor; eassumption|reflexivity].
      * cbn [fst snd] in Hp. destruct (is_tdir sub); [|contradiction].
        apply (IH _ He) in Hp. destruct Hp as (rel & Hrel & ->).
        exists (name :: rel). split.
        -- econstructor; eassumption.
        -- apply join_extend.
    + intros (rel & Hrel & ->).
      inversion Hrel as [? name sub Hin|? name sub rel' Hin Hsub]; subst.
      * left. exists name. split; [reflexivity|].
        apply in_walk_names. now exists sub.
      * right. exists (name, sub). split; [exact Hin|]. cbn [fst snd].
        destruct sub as [|sub_entries]; [inversion Hsub|]. cbn [is_tdir].
        apply (IH _ Hin). exists rel'. split; [exact Hsub|].
        symmetry. apply join_extend.
Qed.

Lemma length_filter_partition (A : Type) (f : A -> bool) (l : list A) :
  length (filter f l) + length (filter (fun x => negb (f x)) l) = length l.
Proof.
  induction l as [|x l IH]; [reflexivity|]. simpl.
  destruct (f x); simpl; lia.
Qed.

Lemma touched_app (rows1 rows2 : list (Path * list string * list string)) :
  touched (rows1 ++ rows2) = touched rows1 ++ touched rows2.
Proof. unfold touched. apply flat_map_app. Qed.

Lemma length_touched_flat_map (A : Type)
      (g : A -> list (Path * list string * list string)) (l : list A) :
  length (touched (flat_map g l))
  = list_sum (map (fun e => length (touched (g e))) l).
Proof.
  induction l as [|e l IH]; [reflexivity|].
  cbn [flat_map map list_sum fold_right].
  rewrite touched_app, length_app, IH. reflexivity.
Qed.

Lemma list_sum_S (A : Type) (f : A -> nat) (l : list A) :
  list_sum (map (fun e => S (f e)) l) = length l + list_sum (map f l).
Proof.
  induction l as [|e l IH]; [reflexivity|].
  simpl. rewrite IH. lia.
Qed.

Lemma length_touched_walk (t : tree) :
  forall top, length (touched (walk top t)) = entries_below t.
Proof.
  induction t as [|entries IH] using tree_induction; intros top;
    [reflexivity|].
  cbn [walk entries_below].
  change (touched (?row :: ?rows)) with (touched ([row] ++ rows)).
  rewrite touched_app, length_app, length_touched_flat_map, list_sum_S.
  f_equal.
  - unfold touched. cbn [flat_map]. rewrite app_nil_r.
    rewrite length_map, length_app, !length_map.
    apply length_filter_partition.
  - f_equal. apply map_ext_in. intros [name sub] Hin. cbn [fst snd].
    rewrite Forall_forall in IH.
    destruct sub as [|sub_entries]; [reflexivity|].
    apply (IH _ Hin).
Qed.

Lemma fix_permissions_active (platform : string) (version_info : nat * nat)
      (has_chflags : bool) (dirpath : Path) (t : tree) :
  WINDOWS platform = true -> version_at_least_3_8 version_info = false ->
  fix_py37_win_tempdir_permissions platform version_info has_chflags dirpath t
  = flat_map (calls_on has_chflags) (touched (walk dirpath t)).
Proof.
  intros Hwin Hver. unfold fix_py37_win_tempdir_permissions.
  rewrite Hwin, Hver. cbn [negb orb]. apply calls_touched.
Qed.

Lemma in_calls_chmod (has_chflags : bool) (paths : list Path) (p : Path)
      (mode : nat) :
  In (Chmod p mode) (flat_map (calls_on has_chflags) paths)
  <-> mode = mode_0o700 /\ In p paths.
Proof.
  rewrite in_flat_map. unfold calls_on. split.
  - intros (q & Hq & Hin). apply in_app_iff in Hin.
    destruct Hin as [Hin|[Hin|[]]].
    + destruct has_chflags; [|contradiction].
      destruct Hin as [Hin|[]]; discriminate.
    + inversion Hin; subst. now split.
  - intros [-> Hin]. exists p. split; [exact Hin|].
    apply in_app_iff. right. now left.
Qed.

Lemma entry_at_nonempty (t : tree) (rel : list string) :
  entry_at t rel -> rel <> [].
Proof. intros H; inversion H; discriminate. Qed.

(** X15. On Windows with a Python before 3.8 the function calls [chmod]
    with mode [0o700] on every entry below [dirpath], at any depth, and on
    nothing else; [dirpath] itself is never touched. *)
Theorem fix_permissions_reaches_all_entries
        (platform : string) (version_info : nat * nat) (has_chflags : bool)
        (dirpath : Path) (t : tree) :
  WINDOWS platform = true -> version_at_least_3_8 version_info = false ->
  (forall p mode,
     In (Chmod p mode)
        (fix_py37_win_tempdir_permissions platform version_info has_chflags
           dirpath t)
     <-> mode = mode_0o700
         /\ exists rel, entry_at t rel /\ p = extend dirpath rel)
  /\ (forall mode,
        ~ In (Chmod dirpath mode)
             (fix_py37_win_tempdir_permissions platform version_info
                has_chflags dirpath t)).
Proof.
  intros Hwin Hver.
  rewrite (@fix_permissions_active platform version_info has_chflags
             dirpath t Hwin Hver).
  assert (H : forall p mode,
             In (Chmod p mode)
                (flat_map (calls_on has_chflags) (touched (walk dirpath t)))
             <-> mode = mode_0o700
                 /\ exists rel, entry_at t rel /\ p = extend dirpath rel).
  { intros p mode. now rewrite in_calls_chmod, touched_walk. }
  split; [exact H|].
  intros mode Hin. apply H in Hin. destruct Hin as (_ & rel & Hrel & E).
  apply entry_at_nonempty in Hrel. apply Hrel.
  apply (f_equal segments) in E. unfold extend in E. cbn [segments] in E.
  rewrite <- (app_nil_r (segments dirpath)) in E at 1.
  apply app_inv_head in E. now symmetry.
Qed.

Lemma fix_permissions_reaches_all_entries_witness :
  In (Chmod (posix ["tmp"; "sub"; "b.txt"]) mode_0o700)
     (fix_py37_win_tempdir_permissions "win32" (3, 7) false (posix ["tmp"])
        tmp_tree).
Proof.
  apply (proj1 (@fix_permissions_reaches_all_entries
                  "win32" (3, 7) false (posix ["tmp"]) tmp_tree
                  eq_refl eq_refl)).
  split; [reflexivity|].
  exists ["sub"; "b.txt"]%string. split; [|reflexivity].
  eapply entry_deeper.
  - right. left. reflexivity.
  - eapply entry_child. left. reflexivity.
Defined.

(** X16. Off Windows, and from Python 3.8 on, the function makes no call at
    all. Where it is active it makes one [chmod] call per entry below
    [dirpath], preceded by a [chflags] call when [os] has [chflags], and no
    [chflags] call otherwise. *)
Theorem fix_permissions_call_count
        (platform : string) (version_info : nat * nat) (has_chflags : bool)
        (dirpath : Path) (t : tree) :
  (WINDOWS platform = false \/ version_at_least_3_8 version_info = true ->
   fix_py37_win_tempdir_permissions platform version_info has_chflags
     dirpath t = [])
  /\ (WINDOWS platform = true -> version_at_least_3_8 version_info = false ->
      length (fix_py37_win_tempdir_permissions platform version_info
                has_chflags dirpath t)
      = (if has_chflags then 2 else 1) * entries_below t
      /\ (has_chflags = false ->
          forall p flags,
            ~ In (Chflags p flags)
                 (fix_py37_win_tempdir_permissions platform version_info
                    has_chflags dirpath t))).
Proof.
  split.
  - unfold fix_py37_win_tempdir_permissions. intros [->| ->].
    + reflexivity.
    + now rewrite orb_true_r.
  - intros Hwin Hver.
    rewrite (@fix_permissions_active platform version_info has_chflags
             dirpath t Hwin Hver).
    split.
    + rewrite <- (length_touched_walk t dirpath).
      induction (touched (walk dirpath t)) as [|q paths IH]; simpl.
      * now rewrite Nat.mul_0_r.
      * rewrite length_app, IH. unfold calls_on.
        destruct has_chflags; simpl; lia.
    + intros -> p flags Hin. apply in_flat_map in Hin.
      destruct Hin as (q & _ & [Hin|[]]). discriminate.
Qed.

Lemma fix_permissions_call_count_witness :
  fix_py37_win_tempdir_permissions "linux" (3, 7) true (posix ["tmp"])
    tmp_tree = []
  /\ length (fix_py37_win_tempdir_permissions "win32" (3, 7) true
               (posix ["tmp"]) tmp_tree) = 6.
Proof.
  split.
  - apply (proj1 (@fix_permissions_call_count
                    "linux" (3, 7) true (posix ["tmp"]) tmp_tree)).
    left. reflexivity.
  - apply (proj2 (@fix_permissions_call_count
                    "win32" (3, 7) true (posix ["tmp"]) tmp_tree));
      reflexivity.
Defined.
